(** * Knowledge graph: header parser, reference resolver, dependency
      resolver and context assembler of [knowledge_graph.py]

    A shallow embedding of the Python module.

    - A Python [str] is a [string]; its characters are the code points
      below 256, with [str.lower] and [str.isspace] as Python defines
      them there.
    - A dict that is only looked up by key is a [gmap]; a dict whose
      iteration order is observable ([graph["by_path"]], the records of
      a header) is an association list in insertion order; the visited
      set of the resolver is a [gset].
    - A node is a record of the fields the modelled functions read; its
      scalar fields and the values of a header record are strings.
    - A call that can raise returns a [result]; the loop of the resolver
      takes fuel, and [resolve_dependencies] gives it a bound that is
      proved to suffice.
    - What [pathlib], [re] and the file system do is not part of the
      module: it is the environment [env] the definitions take. *)

From Stdlib Require Import Ascii String List Bool Arith Lia.
From stdpp Require Import base option gmap sets list strings.

(** ** Python string operations *)

Module Str.

(** [s[n:]] *)
Fixpoint drop (n : nat) (s : string) : string :=
  match n, s with
  | O, _ => s
  | S _, EmptyString => EmptyString
  | S n', String _ s' => drop n' s'
  end.

(** [s[:n]] *)
Fixpoint take (n : nat) (s : string) : string :=
  match n, s with
  | O, _ => EmptyString
  | S _, EmptyString => EmptyString
  | S n', String c s' => String c (take n' s')
  end.

(** [s[a:b]] for [0 <= a], [0 <= b] *)
Definition slice (a b : nat) (s : string) : string := take (b - a) (drop a s).

(** [s.startswith(p)] *)
Fixpoint startswith (p s : string) : bool :=
  match p, s with
  | EmptyString, _ => true
  | String _ _, EmptyString => false
  | String a p', String b s' => if Ascii.eqb a b then startswith p' s' else false
  end.

(** [s.find(sub)], [None] for -1: index of the leftmost occurrence. *)
Fixpoint find (sub s : string) : option nat :=
  if startswith sub s then Some 0
  else match s with
       | EmptyString => None
       | String _ s' => S <$> find sub s'
       end.

(** [sub in s] *)
Definition contains (sub s : string) : bool :=
  match find sub s with Some _ => true | None => false end.

(** [s.endswith(suf)] *)
Definition endswith (suf s : string) : bool :=
  (String.length suf <=? String.length s)
  && String.eqb (drop (String.length s - String.length suf) s) suf.

(** [str.isspace] on the code points below 256. *)
Definition is_space (c : ascii) : bool :=
  let n := nat_of_ascii c in
  ((9 <=? n) && (n <=? 13)) || ((28 <=? n) && (n <=? 32))
  || (n =? 133) || (n =? 160).

(** [str.lower] on the code points below 256. *)
Definition lower_char (c : ascii) : ascii :=
  let n := nat_of_ascii c in
  if ((65 <=? n) && (n <=? 90))
     || ((192 <=? n) && (n <=? 222) && negb (n =? 215))
  then ascii_of_nat (n + 32) else c.

Fixpoint lower (s : string) : string :=
  match s with
  | EmptyString => EmptyString
  | String c s' => String (lower_char c) (lower s')
  end.

(** [s.lstrip(chars)], [s.rstrip(chars)] and [s.strip(chars)] with the
    stripped characters given by a predicate. *)
Fixpoint lstrip_by (f : ascii -> bool) (s : string) : string :=
  match s with
  | EmptyString => EmptyString
  | String c s' => if f c then lstrip_by f s' else s
  end.

Fixpoint rstrip_by (f : ascii -> bool) (s : string) : string :=
  match s with
  | EmptyString => EmptyString
  | String c s' =>
      match rstrip_by f s' with
      | EmptyString => if f c then EmptyString else String c EmptyString
      | r => String c r
      end
  end.

Definition strip_by (f : ascii -> bool) (s : string) : string :=
  rstrip_by f (lstrip_by f s).

Definition lstrip : string -> string := lstrip_by is_space.
Definition rstrip : string -> string := rstrip_by is_space.
Definition strip : string -> string := strip_by is_space.

(** [s.split(c)] for a one-character separator. *)
Fixpoint split (c : ascii) (s : string) : list string :=
  match s with
  | EmptyString => [EmptyString]
  | String a s' =>
      if Ascii.eqb a c then EmptyString :: split c s'
      else match split c s' with
           | [] => [String a EmptyString]
           | w :: ws => String a w :: ws
           end
  end.

(** [s.partition(c)] without the separator component:
    [(before, after)], and [(s, "")] when [c] does not occur. *)
Fixpoint partition (c : ascii) (s : string) : string * string :=
  match s with
  | EmptyString => (EmptyString, EmptyString)
  | String a s' =>
      if Ascii.eqb a c then (EmptyString, s')
      else let '(b, r) := partition c s' in (String a b, r)
  end.

Definition is_empty (s : string) : bool :=
  match s with EmptyString => true | _ => false end.

End Str.

(** The newline character and the markers of a header block. *)
Definition nl : string := String "010"%char EmptyString.
Definition marker : string := "---".
(** The literal pattern [\n---\n] of the closing-marker search. *)
Definition closing : string := nl +:+ marker +:+ nl.

(** ** Header parser: [parse_frontmatter] *)

(** Entries of a list in the header: a scalar, or a record.  A record is a
    Python dict with string keys and values, kept in insertion order. *)
Inductive item : Type :=
| IStr (s : string)
| IDict (d : list (string * string)).

(** Values of the metadata map: a scalar or a list. *)
Inductive yvalue : Type :=
| VStr (s : string)
| VList (l : list item).

(** [d.get(k)] *)
Fixpoint dict_get (k : string) (d : list (string * string)) : option string :=
  match d with
  | [] => None
  | (k', v) :: d' => if String.eqb k' k then Some v else dict_get k d'
  end.

(** [d[k] = v] *)
Fixpoint dict_set (k v : string) (d : list (string * string)) : list (string * string) :=
  match d with
  | [] => [(k, v)]
  | (k', v') :: d' =>
      if String.eqb k' k then (k', v) :: d' else (k', v') :: dict_set k v d'
  end.

(** The loop of the parser keeps [current_list], an alias of
    [frontmatter[current_key]], and [current_dict], an alias of the last
    element of [current_list].  Both aliases are kept here as the path to
    the aliased object: [current_key] stands for [current_list] (both are
    set and reset together), and [current_dict] records whether the last
    element of that list is the record being extended. *)
Record pstate : Type := PState {
  frontmatter : gmap string yvalue;
  current_key : option string;
  current_dict : bool
}.

(** [current_list.append(it)] *)
Definition list_append (k : string) (it : item) (fm : gmap string yvalue)
  : gmap string yvalue :=
  match fm !! k with
  | Some (VList l) => <[k := VList (l ++ [it])]> fm
  | _ => fm
  end.

(** [current_dict[key] = value] on the last element of the list. *)
Fixpoint set_last (key value : string) (l : list item) : list item :=
  match l with
  | [] => []
  | [IDict d] => [IDict (dict_set key value d)]
  | it :: l' => it :: set_last key value l'
  end.

Definition dict_update (k key value : string) (fm : gmap string yvalue)
  : gmap string yvalue :=
  match fm !! k with
  | Some (VList l) => <[k := VList (set_last key value l)]> fm
  | _ => fm
  end.

Definition colon : ascii := ":"%char.

(** [key, _, value = s.partition(':')] followed by the two [strip]s. *)
Definition key_value (s : string) : string * string :=
  let '(key, value) := Str.partition colon s in (Str.strip key, Str.strip value).

(** One iteration of [for line in frontmatter_str.split('\n')]. *)
Definition parse_line (st : pstate) (line : string) : pstate :=
  let line_stripped := Str.rstrip line in
  if Str.is_empty line_stripped then st
  else
    let indent := String.length line - String.length (Str.lstrip line) in
    let line_content := Str.strip line_stripped in
    if Str.startswith "- " line_content
       && Str.contains ":" (Str.drop 2 line_content)
    then
      match current_key st with
      | Some k =>
          let '(key, value) := key_value (Str.drop 2 line_content) in
          PState (list_append k (IDict [(key, value)]) (frontmatter st))
                 (Some k) true
      | None => st
      end
    else if (4 <=? indent) && current_dict st && Str.contains ":" line_content
    then
      match current_key st with
      | Some k =>
          let '(key, value) := key_value line_content in
          PState (dict_update k key value (frontmatter st)) (Some k) true
      | None => st
      end
    else if Str.startswith "- " line_content
    then
      match current_key st with
      | Some k =>
          PState (list_append k (IStr (Str.strip (Str.drop 2 line_content)))
                              (frontmatter st))
                 (Some k) false
      | None => st
      end
    else if Str.contains ":" line_content && (indent =? 0)
    then
      let '(key, value) := key_value line_content in
      if Str.is_empty value
      then PState (<[key := VList []]> (frontmatter st)) (Some key) false
      else PState (<[key := VStr value]> (frontmatter st)) None false
    else st.

Definition parse_lines (lines : list string) : gmap string yvalue :=
  frontmatter (fold_left parse_line lines (PState ∅ None false)).

Definition parse_frontmatter (content : string) : gmap string yvalue * string :=
  if negb (Str.startswith marker content) then (∅, content)
  else
    match Str.find closing (Str.drop 3 content) with
    | None => (∅, content)
    | Some start =>
        let end_ := start + String.length closing in
        let frontmatter_str := Str.slice 3 (start + 3) content in
        let body := Str.drop (end_ + 3 + 1) content in
        (parse_lines (Str.split "010"%char frontmatter_str), body)
    end.

(** ** Library environment and results of fallible calls *)

(** Exceptions the modelled code can raise. *)
Inductive exn : Type :=
| TypeError      (* an unhashable dict used as a key, [Path] of a dict *)
| RuntimeError   (* [Path.expanduser] cannot determine a home directory *)
| ValueError     (* [pwd.getpwnam] on a user name with a null character *)
| ReError        (* [re.error]: the pattern does not compile *)
| OverflowError  (* [re]: a repetition count of the pattern is too large *)
| RecursionError (* [re]: the pattern is nested too deeply *).

Inductive result (A : Type) : Type :=
| Ok (a : A)
| Raise (e : exn).
Arguments Ok {A} a.
Arguments Raise {A} e.

(** What the module takes from [pathlib], [re] and the file system. *)
Record env : Type := Env {
  (** [str(Path.home())] *)
  home : string;
  (** [str(Path(s))] *)
  path_str : string -> string;
  (** [str(Path(a) / b)] *)
  path_join : string -> string -> string;
  (** [str(Path(s).expanduser())], or the exception it raises:
      [RuntimeError] when no home directory is found for the user,
      [ValueError] from [pwd.getpwnam] for a user name with a null
      character *)
  expanduser : string -> result string;
  (** [Path(s).name] *)
  path_name : string -> string;
  (** [Path(s).stem] *)
  path_stem : string -> string;
  (** [bool(re.search(pattern, text, re.IGNORECASE))], or the exception
      it raises: [ReError] when the pattern does not compile
      ([re.error]), and what else [re] raises, as [OverflowError] for
      the pattern [a{4294967295}] *)
  re_search : string -> string -> result bool;
  (** [Path(s).exists()] *)
  fs_exists : string -> bool;
  (** [Path(s).read_text()], [None] when it raises *)
  fs_read : string -> option string
}.

(** ** Graph index *)

Record node : Type := Node {
  n_id : string;
  n_type : string;
  n_path : string;
  n_title : string;
  n_specialist : option string;
  n_requires : list item;
  n_optional : list item
}.

(** [graph["nodes"]] is only looked up by key; [graph["by_path"]] is also
    iterated, so it is kept in insertion order. *)
Record graph : Type := Graph {
  nodes : gmap string node;
  by_path : list (string * string)
}.

Section Resolver.

Variable E : env.

Definition WORKSPACE : string :=
  path_join E (path_join E (home E) ".openclaw") "workspace".

(** [str(expand_path(path_str))] *)
Definition expand_path (s : string) : result string :=
  if Str.startswith "~/" s then Ok (path_join E (home E) (Str.drop 2 s))
  else if Str.startswith "~" s then expanduser E s
  else if negb (Str.startswith "/" s) then Ok (path_join E WORKSPACE s)
  else Ok (path_str E s).

(** [graph["by_path"].get(p)] *)
Fixpoint by_path_get (p : string) (bp : list (string * string)) : option string :=
  match bp with
  | [] => None
  | (p', i) :: bp' => if String.eqb p' p then Some i else by_path_get p bp'
  end.

(** [path.endswith(ref) or Path(path).name == ref] *)
Definition suffix_match (ref path : string) : bool :=
  Str.endswith ref path || String.eqb (path_name E path) ref.

(** The loop [for path, node_id in graph["by_path"].items()] of
    [resolve_node_id]. *)
Fixpoint partial_match (ref : string) (bp : list (string * string)) : option string :=
  match bp with
  | [] => None
  | (path, node_id) :: bp' =>
      if suffix_match ref path then Some node_id
      else partial_match ref bp'
  end.

Definition resolve_node_id (g : graph) (ref : string) : result (option string) :=
  if bool_decide (is_Some (nodes g !! ref)) then Ok (Some ref)
  else
    match expand_path ref with
    | Raise e => Raise e
    | Ok expanded =>
        match by_path_get expanded (by_path g) with
        | Some node_id => Ok (Some node_id)
        | None => Ok (partial_match ref (by_path g))
        end
    end.

(** [resolve_node_id] on an entry of a [requires] or [optional] list:
    a record is unhashable, and [ref in graph["nodes"]] raises. *)
Definition resolve_item (g : graph) (ref : item) : result (option string) :=
  match ref with
  | IStr s => resolve_node_id g s
  | IDict _ => Raise TypeError
  end.

(** The loops [for req in ...: queue.append(req_id)] of
    [resolve_dependencies]. *)
Fixpoint enqueue (g : graph) (visited : gset string) (refs : list item)
    (queue : list string) : result (list string) :=
  match refs with
  | [] => Ok queue
  | r :: refs' =>
      match resolve_item g r with
      | Raise e => Raise e
      | Ok (Some req_id) =>
          if negb (Str.is_empty req_id) && bool_decide (req_id ∉ visited)
          then enqueue g visited refs' (queue ++ [req_id])
          else enqueue g visited refs' queue
      | Ok None => enqueue g visited refs' queue
      end
  end.

(** The node a dequeued id stands for: the node of that id, else the
    node of the id it resolves to; [None] for an external reference. *)
Definition find_node (g : graph) (node_id : string)
  : result (option (string * node)) :=
  match nodes g !! node_id with
  | Some n => Ok (Some (node_id, n))
  | None =>
      match resolve_node_id g node_id with
      | Raise e => Raise e
      | Ok (Some resolved_id) =>
          if Str.is_empty resolved_id then Ok None
          else match nodes g !! resolved_id with
               | Some n => Ok (Some (resolved_id, n))
               | None => Ok None
               end
      | Ok None => Ok None
      end
  end.

(** The [while queue] loop; [resolved] is kept in visitation order.
    [None] when the fuel runs out before the queue is empty. *)
Fixpoint bfs (g : graph) (include_optional : bool) (fuel : nat)
    (queue : list string) (visited : gset string) (resolved : list string)
  : option (result (list string)) :=
  match fuel with
  | O => None
  | S fuel' =>
      match queue with
      | [] => Some (Ok (rev resolved))
      | node_id :: queue' =>
          if bool_decide (node_id ∈ visited)
          then bfs g include_optional fuel' queue' visited resolved
          else
            let visited' := {[node_id]} ∪ visited in
            match find_node g node_id with
            | Raise e => Some (Raise e)
            | Ok None => bfs g include_optional fuel' queue' visited' resolved
            | Ok (Some (node_id', n)) =>
                match enqueue g visited' (n_requires n) queue' with
                | Raise e => Some (Raise e)
                | Ok q1 =>
                    match (if include_optional
                           then enqueue g visited' (n_optional n) q1
                           else Ok q1) with
                    | Raise e => Some (Raise e)
                    | Ok q2 =>
                        bfs g include_optional fuel' q2 visited'
                            (resolved ++ [node_id'])
                    end
                end
            end
      end
  end.

(** Every string that can enter the queue. *)
Definition universe (g : graph) (entry_id : string) : gset string :=
  {[entry_id]} ∪ dom (nodes g) ∪ list_to_set (by_path g).*2.

Definition degree (n : node) : nat :=
  length (n_requires n) + length (n_optional n).

Definition max_degree (g : graph) : nat :=
  max_list (degree <$> (map_to_list (nodes g)).*2).

(** Iterations that suffice for the loop to empty its queue. *)
Definition fuel_bound (g : graph) (entry_id : string) : nat :=
  2 + (max_degree g + 1) * size (universe g entry_id).

Definition resolve_dependencies (g : graph) (entry_id : string)
    (include_optional : bool) : option (result (list string)) :=
  bfs g include_optional (fuel_bound g entry_id) [entry_id] ∅ [].

(** *** Vocabulary of the resolver claims *)

(** What [enqueue] appends: ids that an entry of the list resolves to,
    not empty and not yet visited. *)
Definition enqueued (g : graph) (v : gset string) (refs : list item)
    (i : string) : Prop :=
  (i ∉ v) ∧ Str.is_empty i = false
  ∧ ∃ it, it ∈ refs ∧ resolve_item g it = Ok (Some i).

(** An index as the graph builder leaves it: every indexed path belongs
    to a node. *)
Definition wf_index (g : graph) : Prop :=
  ∀ i, i ∈ (by_path g).*2 → is_Some (nodes g !! i).

End Resolver.

(** ** Context assembler *)

Definition dquote : ascii := "034"%char.
Definition squote : ascii := "039"%char.
Definition is_quote (c : ascii) : bool := Ascii.eqb c dquote || Ascii.eqb c squote.

(** What [build_context] collects while it loads the resolved nodes. *)
Record collected : Type := Collected {
  c_files : gmap string string;
  external_refs_required : gset string;
  external_refs_optional : list string;
  skipped_optional : list string
}.

Record bundle : Type := Bundle {
  b_entry : string;
  b_workflow : option string;
  b_nodes : list string;
  b_files : gmap string string;
  b_external_files : gmap string string;
  (** [type], [specialist], [title] of the entry node *)
  b_metadata : option string * option string * option string
}.

Section Assembler.

Variable E : env.

(** Only [re.error] is caught; any other exception of the search
    leaves the function. *)
Definition matches_task (pattern task : string) : result bool :=
  if Str.is_empty task || Str.is_empty pattern then Ok false
  else
    let pattern := Str.strip_by is_quote pattern in
    match re_search E pattern task with
    | Ok b => Ok b
    | Raise ReError => Ok (Str.contains (Str.lower pattern) (Str.lower task))
    | Raise e => Raise e
    end.

(** [item.get(k, "")] *)
Definition dict_get_default (k : string) (d : list (string * string)) : string :=
  match dict_get k d with Some v => v | None => EmptyString end.

(** The loop runs over the list in order: the first entry whose test
    raises ends it, and the two lists are lost with it. *)
Fixpoint parse_optional_deps (optional_list : list item) (task : string)
  : result (list string * list string) :=
  match optional_list with
  | [] => Ok ([], [])
  | IStr s :: rest =>
      match parse_optional_deps rest task with
      | Raise e => Raise e
      | Ok (to_load, skipped) =>
          if negb (Str.is_empty task) then Ok (s :: to_load, skipped)
          else Ok (to_load, s :: skipped)
      end
  | IDict d :: rest =>
      let path := dict_get_default "path" d in
      let pattern := dict_get_default "when" d in
      match matches_task pattern task with
      | Raise e => Raise e
      | Ok selected =>
          match parse_optional_deps rest task with
          | Raise e => Raise e
          | Ok (to_load, skipped) =>
              if selected then Ok (path :: to_load, skipped)
              else Ok (to_load, path :: skipped)
          end
      end
  end.

(** [opt.get("path", opt) if isinstance(opt, dict) else opt], when it is
    a string; a record without a path is its own path, and [Path] of it
    raises [TypeError]. *)
Definition opt_path (opt : item) : result string :=
  match opt with
  | IStr s => Ok s
  | IDict d =>
      match dict_get "path" d with
      | Some p => Ok p
      | None => Raise TypeError
      end
  end.

(** [any(p.lower() in name.lower() for p in pills)] for the stem of
    [path]. *)
Definition pill_match (pills : list string) (path : string) : bool :=
  existsb (fun p => Str.contains (Str.lower p) (Str.lower (path_stem E path))) pills.

(** The loop over [optional] under explicit pills.  It stops at the first
    entry whose path cannot be taken: the exception leaves the [try]
    block, and what was appended before stays. *)
Fixpoint select_pills (pills : list string) (optional : list item)
    (c : collected) : collected :=
  match optional with
  | [] => c
  | opt :: rest =>
      match opt_path opt with
      | Raise _ => c
      | Ok path =>
          if pill_match pills path
          then select_pills pills rest
                 (Collected (c_files c) (external_refs_required c)
                    (external_refs_optional c ++ [path]) (skipped_optional c))
          else select_pills pills rest
                 (Collected (c_files c) (external_refs_required c)
                    (external_refs_optional c) (skipped_optional c ++ [path]))
      end
  end.

(** [isinstance(req, str) and (req.startswith("~/gdrive") or
    req.startswith("/"))] *)
Definition is_required_external (req : item) : bool :=
  match req with
  | IStr s => Str.startswith "~/gdrive" s || Str.startswith "/" s
  | IDict _ => false
  end.

Definition item_str (it : item) : option string :=
  match it with IStr s => Some s | IDict _ => None end.

(** The loop over [requires] that fills [external_refs_required]. *)
Definition required_externals (reqs : list item) : gset string :=
  list_to_set (omap item_str (filter (fun r => is_required_external r = true) reqs)).

(** The body of [for node_id in all_deps], with its [try] block: an
    exception of [parse_optional_deps] is caught there, after the text
    and the required externals of the node were stored. *)
Definition collect_node (g : graph) (task : string) (pills : list string)
    (c : collected) (node_id : string) : collected :=
  match nodes g !! node_id with
  | None => c
  | Some n =>
      if Str.is_empty (n_path n) then c
      else if negb (fs_exists E (n_path n)) then c
      else
        match fs_read E (n_path n) with
        | None => c
        | Some text =>
            let c1 :=
              Collected (<[node_id := text]> (c_files c))
                (external_refs_required c ∪ required_externals (n_requires n))
                (external_refs_optional c) (skipped_optional c) in
            match n_optional n with
            | [] => c1
            | optional =>
                match pills with
                | _ :: _ => select_pills pills optional c1
                | [] =>
                    match parse_optional_deps optional task with
                    | Ok (to_load, skipped) =>
                        Collected (c_files c1) (external_refs_required c1)
                          (external_refs_optional c1 ++ to_load)
                          (skipped_optional c1 ++ skipped)
                    | Raise _ => c1
                    end
                end
            end
        end
  end.

Definition collect (g : graph) (all_deps : list string) (task : string)
    (pills : list string) : collected :=
  fold_left (collect_node g task pills) all_deps (Collected ∅ ∅ [] []).

Definition load_external_file (path_ref : string) : option string :=
  match expand_path E path_ref with
  | Raise _ => None
  | Ok path => if fs_exists E path then fs_read E path else None
  end.

(** One iteration of the two loading loops. *)
Definition load_into (external_files : gmap string string) (ref : string)
  : gmap string string :=
  match load_external_file ref with
  | Some content =>
      if Str.is_empty content then external_files
      else <[path_name E ref := content]> external_files
  | None => external_files
  end.

(** [all_deps] after the workflow's dependencies are appended. *)
Fixpoint append_new (all_deps wf_deps : list string) : list string :=
  match wf_deps with
  | [] => all_deps
  | dep :: rest =>
      if bool_decide (dep ∈ all_deps) then append_new all_deps rest
      else append_new (all_deps ++ [dep]) rest
  end.

(** [if workflow_id:] holds for a workflow id that is given and not
    empty. *)
Definition workflow_deps (g : graph) (workflow_id : option string)
  : option (result (list string)) :=
  match workflow_id with
  | None => Some (Ok [])
  | Some w =>
      if Str.is_empty w then Some (Ok [])
      else resolve_dependencies E g w false
  end.

(** The required externals are a Python set, iterated in an order the
    language leaves open; [elements] fixes one. *)
Definition build_context (g : graph) (entry_id : string)
    (workflow_id : option string) (task : string) (pills : list string)
  : option (result bundle) :=
  match resolve_dependencies E g entry_id false with
  | None => None
  | Some (Raise e) => Some (Raise e)
  | Some (Ok deps) =>
      match workflow_deps g workflow_id with
      | None => None
      | Some (Raise e) => Some (Raise e)
      | Some (Ok wf_deps) =>
          let all_deps := append_new deps wf_deps in
          let c := collect g all_deps task pills in
          let ext1 := fold_left load_into (elements (external_refs_required c)) ∅ in
          let ext2 := fold_left load_into (external_refs_optional c) ext1 in
          let entry_node := nodes g !! entry_id in
          Some (Ok (Bundle entry_id workflow_id all_deps (c_files c) ext2
                      (n_type <$> entry_node,
                       entry_node ≫= n_specialist,
                       n_title <$> entry_node)))
      end
  end.

(** *** Vocabulary of the assembler claims *)

(** The node behind an id of the resolved list when the assembler loads
    it: the node is indexed, has a backing path, the file exists and
    can be read. *)
Definition loaded_node (g : graph) (node_id : string) : option node :=
  match nodes g !! node_id with
  | Some n =>
      if negb (Str.is_empty (n_path n)) && fs_exists E (n_path n)
         && bool_decide (is_Some (fs_read E (n_path n)))
      then Some n else None
  | None => None
  end.

Definition loaded (g : graph) (all_deps : list string) : list node :=
  omap (loaded_node g) all_deps.

(** An optional entry has a path: it is a plain string, or a record
    with a [path] field. *)
Definition has_path (opt : item) : Prop :=
  match opt with
  | IStr _ => True
  | IDict d => is_Some (dict_get "path" d)
  end.

Definition entry_path (opt : item) : string :=
  match opt with
  | IStr s => s
  | IDict d => dict_get_default "path" d
  end.









(** The directories the graph builder scans, [SCAN_DIRS]. *)
Definition SCAN_DIRS : list string :=
  [path_join E (WORKSPACE E) "knowledge"; path_join E (WORKSPACE E) "config";
   path_join E (WORKSPACE E) "routines"].

(** A reference as the claim words a required external: a path with an
    absolute or home-relative prefix that does not lie under a corpus
    root. *)
Definition under_corpus_root (ref : string) : bool :=
  match expand_path E ref with
  | Ok p => existsb (λ root, Str.startswith (root +:+ "/") p) SCAN_DIRS
  | Raise _ => false
  end.

Definition points_outside_corpus (ref : string) : bool :=
  (Str.startswith "/" ref || Str.startswith "~/" ref)
  && negb (under_corpus_root ref).

End Assembler.

(** ** A concrete environment

    Paths that are already normalised, one user with home [/home/u], and
    the fragment of [re] on patterns without metacharacters. *)

Module Posix.

Definition home : string := "/home/u".

Definition path_join (a b : string) : string :=
  if Str.startswith "/" b then b else a +:+ "/" +:+ b.

Definition nul : string := String "000"%char EmptyString.

(** No user other than the current one has a home directory; looking
    up a user name with a null character raises [ValueError]. *)
Definition expanduser (s : string) : result string :=
  if String.eqb s "~" then Ok home
  else if Str.startswith "~/" s then Ok (home +:+ "/" +:+ Str.drop 2 s)
  else if Str.startswith "~" s then
    let user := match Str.find "/" s with
                | Some i => Str.slice 1 i s
                | None => Str.drop 1 s
                end in
    if Str.contains nul user then Raise ValueError else Raise RuntimeError
  else Ok s.

(** The text after the last [/]. *)
Fixpoint path_name (s : string) : string :=
  match s with
  | EmptyString => EmptyString
  | String _ s' => if Str.contains "/" s then path_name s' else s
  end.

(** [name[:i]] for the last dot, at [i], when [0 < i < len(name) - 1]. *)
Definition path_stem (s : string) : string :=
  let name := path_name s in
  match Str.find "." (String.rev name) with
  | Some j =>
      let i := String.length name - 1 - j in
      if (0 <? i) && (i <? String.length name - 1) then Str.take i name
      else name
  | None => name
  end.

Definition is_meta (c : ascii) : bool :=
  existsb (Ascii.eqb c)
    (list_ascii_of_string ".^$*+?{}[]\|()").

Fixpoint has_meta (s : string) : bool :=
  match s with
  | EmptyString => false
  | String c s' => is_meta c || has_meta s'
  end.

(** [re.search] with [re.IGNORECASE] on the three kinds of pattern the
    examples use: a pattern of ordinary characters is found where its
    text occurs, case ignored; the pattern [a{4294967295}] has a
    repetition count [re] refuses with [OverflowError]; any other
    pattern with a metacharacter is taken not to compile, which is what
    [re] does for a group that is opened and never closed, as in
    [deploy(].  Other patterns with metacharacters are outside this
    fragment. *)
Definition re_search (pattern text : string) : result bool :=
  if String.eqb pattern "a{4294967295}" then Raise OverflowError
  else if negb (has_meta pattern)
  then Ok (Str.contains (Str.lower pattern) (Str.lower text))
  else Raise ReError.

Definition env_of (files : list (string * string)) : env :=
  Env home (fun s => s) path_join expanduser path_name path_stem re_search
      (fun p => bool_decide (is_Some (list_to_map (M := gmap string string) files !! p)))
      (fun p => list_to_map (M := gmap string string) files !! p).

End Posix.

(** ** Vocabulary of the header claims *)

Definition newline : ascii := "010"%char.

Definition lines (content : string) : list string := Str.split newline content.

Fixpoint join_lines (ls : list string) : string :=
  match ls with
  | [] => EmptyString
  | [l] => l
  | l :: ls' => l +:+ nl +:+ join_lines ls'
  end.

(** A closing marker line: a line after the first that consists solely of
    the marker. *)
Definition has_closing_line (content : string) : Prop :=
  ∃ i, 0 < i ∧ lines content !! i = Some marker.

(** A well-formed header block: an opening marker line at the very start
    and a closing marker line. *)
Definition well_formed_header (content : string) : Prop :=
  lines content !! 0 = Some marker ∧ has_closing_line content.

Fixpoint after_marker (ls : list string) : option (list string) :=
  match ls with
  | [] => None
  | l :: ls' => if String.eqb l marker then Some ls' else after_marker ls'
  end.

(** The document text that follows the first closing marker line. *)
Definition text_after_header (content : string) : option string :=
  match lines content with
  | [] => None
  | _ :: rest => join_lines <$> after_marker rest
  end.

(** ** Example indexes *)

Module Examples.

(** The backing path the graph builder would record for a document of
    the knowledge directory. *)
Definition knowledge_path (name : string) : string :=
  "/home/u/.openclaw/workspace/knowledge/" +:+ name +:+ ".md".

Definition doc (i : string) (requires : list string) (optional : list item) : node :=
  Node i "domain" (knowledge_path i) i None (IStr <$> requires) optional.

(** The index after the graph builder registered the documents in this
    order: [nodes[id] = node] and [by_path[path] = id]. *)
Definition index_of (docs : list node) : graph :=
  Graph (list_to_map ((λ n, (n_id n, n)) <$> docs))
        ((λ n, (n_path n, n_id n)) <$> docs).

(** All documents exist and hold their own id as text. *)
Definition E_docs (docs : list node) : env :=
  Posix.env_of ((λ n, (n_path n, n_id n)) <$> docs).

(** [a] requires [b] and [c]; [c] requires [b]. *)
Definition diamond_docs : list node :=
  [doc "a" ["b"; "c"] []; doc "b" [] []; doc "c" ["b"] []].
Definition g_diamond : graph := index_of diamond_docs.

(** [a] requires [b]; [b] requires [a]. *)
Definition cycle_docs : list node := [doc "a" ["b"] []; doc "b" ["a"] []].
Definition g_cycle : graph := index_of cycle_docs.

(** Two documents whose file names both end with [a.md]. *)
Definition suffix_docs : list node := [doc "data" [] []; doc "a" [] []].
Definition g_suffix : graph := index_of suffix_docs.

Definition rank_diamond (i : string) : nat :=
  if String.eqb i "a" then 2 else if String.eqb i "c" then 1 else 0.

Definition E_diamond : env := E_docs diamond_docs.
Definition E_cycle : env := E_docs cycle_docs.
Definition E_suffix : env := E_docs suffix_docs.

(** A document with a header block and the body [Hello]. *)
Definition doc_hello : string :=
  marker +:+ nl +:+ "id: a" +:+ nl +:+ marker +:+ nl +:+ "Hello".

(** A document whose header block is never closed. *)
Definition doc_open : string := marker +:+ nl +:+ "id: a".

(** Scenario 2: [a] has one structured optional entry. *)
Definition extra_deploy : item := IDict [("path", "extra.md"); ("when", "deploy")].



(** [a] requires [b] and a file under the home directory. *)
Definition notes_docs : list node :=
  [doc "a" ["b"; "~/notes/x.md"; "/srv/shared/y.md"] []; doc "b" [] []].
Definition g_notes : graph := index_of notes_docs.
Definition E_notes : env := E_docs notes_docs.

(** [a] with three optional entries. *)
Definition pills_docs : list node :=
  [doc "a" [] [extra_deploy; IStr "~/gdrive/pills/Deploy-Guide.md";
               IStr "~/gdrive/pills/style.md"]].
Definition g_pills : graph := index_of pills_docs.
Definition E_pills : env := E_docs pills_docs.


(** [a] requires [b]. *)
Definition chain_docs : list node := [doc "a" ["b"] []; doc "b" [] []].
Definition g_chain : graph := index_of chain_docs.
Definition E_chain : env := E_docs chain_docs.
Definition rank_chain (i : string) : nat := if String.eqb i "a" then 1 else 0.

End Examples.

(** ** Vocabulary of the ordering claims *)

Section Order.

Variable E : env.

(** [X requires Y]: an entry of the [requires] list of node [X] resolves
    to [Y]. *)
Definition req_edge (g : graph) (X Y : string) : Prop :=
  ∃ n it, nodes g !! X = Some n ∧ it ∈ n_requires n
          ∧ resolve_item E g it = Ok (Some Y).

(** The requires-subgraph reachable from the entry has no cycle. *)
Definition acyclic_from (g : graph) (entry : string) : Prop :=
  ∀ X, rtc (req_edge g) entry X → ¬ tc (req_edge g) X X.

(** [y] occurs in [l] at a position strictly before one of [x]. *)
Definition before (l : list string) (y x : string) : Prop :=
  ∃ i j, l !! i = Some y ∧ l !! j = Some x ∧ i < j.

Definition topo_ordered (g : graph) (l : list string) : Prop :=
  ∀ X Y, req_edge g X Y → X ∈ l → Y ∈ l → before l Y X.

End Order.

(** ** Formatter: [format_context_for_spawn] *)

(** [sep.join(parts)] *)
Fixpoint join (sep : string) (parts : list string) : string :=
  match parts with
  | [] => EmptyString
  | [p] => p
  | p :: ps => p +:+ sep +:+ join sep ps
  end.

(** The context dict as the formatter reads it; [external_files] is
    kept in the iteration order of the dict. *)
Record context : Type := Context {
  ctx_entry : string;
  ctx_workflow : option string;
  ctx_nodes : list string;
  ctx_files : gmap string string;
  ctx_external_files : list (string * string)
}.

(** A heading, the stripped body of the content, and an empty line. *)
Definition body_section (heading content : string) : list string :=
  [heading; Str.strip (parse_frontmatter content).2; EmptyString].

Definition node_section (files : gmap string string) (node_id : string)
  : list string :=
  match files !! node_id with
  | Some content =>
      if Str.is_empty content then []
      else body_section ("## " +:+ node_id) content
  | None => []
  end.

Definition external_section (ext : list (string * string)) : list string :=
  match ext with
  | [] => []
  | _ =>
      "## Reference Materials (External)"
      :: flat_map (λ '(filename, content),
                   body_section ("### " +:+ filename) content) ext
  end.

Definition format_parts (ctx : context) (task : string) : list string :=
  ["# Context: " +:+ ctx_entry ctx]
  ++ match ctx_workflow ctx with
     | Some w => if Str.is_empty w then [] else ["**Workflow**: " +:+ w]
     | None => []
     end
  ++ [EmptyString]
  ++ flat_map (node_section (ctx_files ctx)) (ctx_nodes ctx)
  ++ external_section (ctx_external_files ctx)
  ++ ["---"; "## YOUR TASK"; task].

Definition format_context_for_spawn (ctx : context) (task : string) : string :=
  join nl (format_parts ctx task).

(** The test [if content:] behind [context["files"].get(node_id)]. *)
Definition has_content (files : gmap string string) (node_id : string) : bool :=
  match files !! node_id with
  | Some content => negb (Str.is_empty content)
  | None => false
  end.

(** The context with its node list cut down to the nodes that have
    content. *)
Definition with_content (ctx : context) : context :=
  Context (ctx_entry ctx) (ctx_workflow ctx)
          (List.filter (has_content (ctx_files ctx)) (ctx_nodes ctx))
          (ctx_files ctx) (ctx_external_files ctx).

(** ** Graph builder: [scan_knowledge_files] *)

Inductive edge_kind : Type := EdgeRequires | EdgeOptional.

(** A node as the graph builder stores it: the id and the type are
    strings, or the builder raises; the other fields hold whatever the
    header gives. *)
Record scanned_node : Type := SNode {
  s_id : string;
  s_type : string;
  s_path : string;
  s_title : yvalue;
  s_specialist : option yvalue;
  s_requires : yvalue;
  s_optional : yvalue;
  s_provides : yvalue;
  s_frontmatter : gmap string yvalue
}.

(** The graph under construction; the two lookup tables are dicts in
    insertion order. *)
Record scanned : Type := Scanned {
  sc_nodes : gmap string scanned_node;
  sc_edges : list (string * item * edge_kind);
  sc_by_path : list (string * string);
  sc_by_type : list (string * list string)
}.

(** Iterating a string yields its characters. *)
Fixpoint chars (s : string) : list string :=
  match s with
  | EmptyString => []
  | String c s' => String c EmptyString :: chars s'
  end.

(** [for x in v] for a value of the metadata map. *)
Definition iter_value (v : yvalue) : list item :=
  match v with
  | VStr s => IStr <$> chars s
  | VList l => l
  end.

(** [frontmatter.get(k, default)] *)
Definition get_default (k : string) (default : yvalue)
    (fm : gmap string yvalue) : yvalue :=
  match fm !! k with
  | Some v => v
  | None => default
  end.

(** [if t not in by_type: by_type[t] = []] and
    [by_type[t].append(i)] *)
Fixpoint by_type_add (t i : string) (bt : list (string * list string))
  : list (string * list string) :=
  match bt with
  | [] => [(t, [i])]
  | (t', ids) :: bt' =>
      if String.eqb t' t then (t', ids ++ [i]) :: bt'
      else (t', ids) :: by_type_add t i bt'
  end.

Definition extensions : list string := [".md"; ".yaml"; ".yml"].

Section Scan.

Variable E : env.
(** [path.suffix] *)
Variable path_suffix : string → string.
(** [path.read_text(errors='ignore')], [None] when it raises *)
Variable read_text : string → option string.

(** [frontmatter.get("id") or path.stem], and what storing the node
    under it does: a list is not hashable. *)
Definition node_id_of (fm : gmap string yvalue) (path : string) : result string :=
  match fm !! "id" with
  | Some (VStr s) => if Str.is_empty s then Ok (path_stem E path) else Ok s
  | Some (VList []) => Ok (path_stem E path)
  | Some (VList (_ :: _)) => Raise TypeError
  | None => Ok (path_stem E path)
  end.

(** [frontmatter.get("type", "unknown")], and what looking it up in
    [by_type] does. *)
Definition node_type_of (fm : gmap string yvalue) : result string :=
  match fm !! "type" with
  | Some (VStr s) => Ok s
  | Some (VList _) => Raise TypeError
  | None => Ok "unknown"
  end.

(** The body of the loop behind [parse_frontmatter(content)]. *)
Definition register (G : scanned) (path content : string) : result scanned :=
  let fm := (parse_frontmatter content).1 in
  match node_id_of fm path with
  | Raise e => Raise e
  | Ok node_id =>
      match node_type_of fm with
      | Raise e => Raise e
      | Ok node_type =>
          let node :=
            SNode node_id node_type path
              (get_default "title" (VStr (path_stem E path)) fm)
              (fm !! "specialist")
              (get_default "requires" (VList []) fm)
              (get_default "optional" (VList []) fm)
              (get_default "provides" (VList []) fm)
              fm in
          Ok (Scanned
                (<[node_id := node]> (sc_nodes G))
                (sc_edges G
                 ++ ((λ req, (node_id, req, EdgeRequires))
                       <$> iter_value (s_requires node))
                 ++ ((λ opt, (node_id, opt, EdgeOptional))
                       <$> iter_value (s_optional node)))
                (dict_set path node_id (sc_by_path G))
                (by_type_add node_type node_id (sc_by_type G)))
      end
  end.

(** The two tests that skip a path. *)
Definition eligible (path : string) : bool :=
  bool_decide (path_suffix path ∈ extensions)
  && negb (Str.startswith "." (path_name E path)).

(** The loops over the scan directories; [listing] is what
    [scan_dir.rglob("*")] yields over the directories of [SCAN_DIRS]
    that exist, in order. *)
Fixpoint scan_loop (listing : list string) (G : scanned) : result scanned :=
  match listing with
  | [] => Ok G
  | path :: rest =>
      if negb (eligible path) then scan_loop rest G
      else
        match read_text path with
        | None => scan_loop rest G
        | Some content =>
            match register G path content with
            | Raise e => Raise e
            | Ok G' => scan_loop rest G'
            end
        end
  end.

Definition scan_knowledge_files (listing : list string) : result scanned :=
  scan_loop listing (Scanned ∅ [] [] []).

(** A header the graph builder cannot register: its id is a non-empty
    list, or its type is a list. *)
Definition bad_header (content : string) : Prop :=
  (∃ x l, (parse_frontmatter content).1 !! "id" = Some (VList (x :: l)))
  ∨ (∃ l, (parse_frontmatter content).1 !! "type" = Some (VList l)).

(** The document at [path] is registered under the id [i]: the path
    passes the two tests, the file can be read, and its header, or its
    stem, gives [i]. *)
Definition registers (path i : string) : Prop :=
  eligible path = true
  ∧ ∃ content, read_text path = Some content
               ∧ node_id_of (parse_frontmatter content).1 path = Ok i.

(** The header field behind each kind of edge. *)
Definition edge_field (k : edge_kind) : string :=
  match k with
  | EdgeRequires => "requires"
  | EdgeOptional => "optional"
  end.

(** What the graph builder keeps about the graph. *)
Definition scanned_ok (G : scanned) : Prop :=
  (∀ p i, (p, i) ∈ sc_by_path G → is_Some (sc_nodes G !! i))
  ∧ (∀ i n, sc_nodes G !! i = Some n → s_id n = i)
  ∧ (∀ t ids i, (t, ids) ∈ sc_by_type G → i ∈ ids → is_Some (sc_nodes G !! i))
  ∧ (∀ i r k, (i, r, k) ∈ sc_edges G → is_Some (sc_nodes G !! i)).

End Scan.

(** ** Vocabulary of the further properties *)

Section Reach.

Variable E : env.

(** [x] depends on [y]: an entry of the requires list of the node [x],
    or with the include-optional flag of its optional list, resolves to
    the id [y], which is not empty. *)
Definition dep_edge (g : graph) (opt : bool) (x y : string) : Prop :=
  ∃ n it, nodes g !! x = Some n
          ∧ (it ∈ n_requires n ∨ (opt = true ∧ it ∈ n_optional n))
          ∧ resolve_item E g it = Ok (Some y) ∧ Str.is_empty y = false.

(** A reference that does not go through [Path.expanduser]. *)
Definition safe_ref (s : string) : Prop :=
  Str.startswith "~" s = false ∨ Str.startswith "~/" s = true.

Definition safe_item (it : item) : Prop :=
  match it with
  | IStr s => safe_ref s
  | IDict _ => False
  end.

(** The lists of a node the resolver reads under the flag. *)
Definition read_lists (opt : bool) (n : node) : list item :=
  n_requires n ++ (if opt then n_optional n else []).

End Reach.

(** A line the parser skips in every state: a blank line, or a line
    indented by one to three characters that is no list item. *)
Definition ignorable (line : string) : bool :=
  let indent := String.length line - String.length (Str.lstrip line) in
  Str.is_empty (Str.rstrip line)
  || ((1 <=? indent) && (indent <=? 3)
      && negb (Str.startswith "- " (Str.strip (Str.rstrip line)))).

(** ** The parser loop with its lists and records as objects

    The lists and the records the loop of [parse_frontmatter] builds are
    Python objects: [current_list] and [current_dict] are references to
    them, and what is appended or stored through a reference is seen by
    every holder of the object.  Here the objects live in two stores
    and a reference is an address, the position of the object in its
    store; a new object is stored at the end. *)

(** An element of a list: a string, or a reference to a record. *)
Inductive hitem : Type :=
| HStr (s : string)
| HRef (d : nat).

(** A value of [frontmatter]: a string, or a reference to a list. *)
Inductive hvalue : Type :=
| HVStr (s : string)
| HVList (l : nat).

Record hstate : Type := HState {
  h_frontmatter : gmap string hvalue;
  h_lists : list (list hitem);
  h_dicts : list (list (string * string));
  h_current_key : option string;
  h_current_list : option nat;
  h_current_dict : option nat
}.

(** One iteration of [for line in frontmatter_str.split('\n')] on the
    stores. *)
Definition parse_line_h (st : hstate) (line : string) : hstate :=
  let line_stripped := Str.rstrip line in
  if Str.is_empty line_stripped then st
  else
    let indent := String.length line - String.length (Str.lstrip line) in
    let line_content := Str.strip line_stripped in
    if Str.startswith "- " line_content
       && Str.contains ":" (Str.drop 2 line_content)
    then
      match h_current_list st with
      | Some l =>
          let '(key, value) := key_value (Str.drop 2 line_content) in
          let d := length (h_dicts st) in
          HState (h_frontmatter st)
                 (alter (λ items, items ++ [HRef d]) l (h_lists st))
                 (h_dicts st ++ [[(key, value)]])
                 (h_current_key st) (h_current_list st) (Some d)
      | None => st
      end
    else if (4 <=? indent) && bool_decide (is_Some (h_current_dict st))
            && Str.contains ":" line_content
    then
      match h_current_dict st with
      | Some d =>
          let '(key, value) := key_value line_content in
          HState (h_frontmatter st) (h_lists st)
                 (alter (dict_set key value) d (h_dicts st))
                 (h_current_key st) (h_current_list st) (h_current_dict st)
      | None => st
      end
    else if Str.startswith "- " line_content
    then
      match h_current_list st with
      | Some l =>
          HState (h_frontmatter st)
                 (alter (λ items,
                           items ++ [HStr (Str.strip (Str.drop 2 line_content))])
                        l (h_lists st))
                 (h_dicts st)
                 (h_current_key st) (h_current_list st) None
      | None => st
      end
    else if Str.contains ":" line_content && (indent =? 0)
    then
      let '(key, value) := key_value line_content in
      if Str.is_empty value
      then
        let l := length (h_lists st) in
        HState (<[key := HVList l]> (h_frontmatter st))
               (h_lists st ++ [[]]) (h_dicts st)
               (Some key) (Some l) None
      else
        HState (<[key := HVStr value]> (h_frontmatter st))
               (h_lists st) (h_dicts st) None None None
    else st.

(** The state before the first line. *)
Definition h_init : hstate := HState ∅ [] [] None None None.

(** The dict a holder of [frontmatter] sees: every reference followed
    to its object. *)
Definition read_item (dicts : list (list (string * string))) (it : hitem)
  : item :=
  match it with
  | HStr s => IStr s
  | HRef d => IDict (default [] (dicts !! d))
  end.

Definition read_value (lists : list (list hitem))
    (dicts : list (list (string * string))) (v : hvalue) : yvalue :=
  match v with
  | HVStr s => VStr s
  | HVList l => VList (read_item dicts <$> default [] (lists !! l))
  end.

Definition read_out (st : hstate) : gmap string yvalue :=
  read_value (h_lists st) (h_dicts st) <$> h_frontmatter st.

(** The aliases are in step: [current_list] is the list stored under
    [current_key], and [current_dict] is the last element of
    [current_list]. *)
Definition aliases_ok (st : hstate) : Prop :=
  (∀ l, h_current_list st = Some l →
        ∃ k, h_current_key st = Some k
             ∧ h_frontmatter st !! k = Some (HVList l))
  ∧ (∀ d, h_current_dict st = Some d →
          ∃ l items, h_current_list st = Some l
                     ∧ h_lists st !! l = Some (items ++ [HRef d])).

(** The element at position [i] of the list at [l] is a reference to
    the record at [d]. *)
Definition ref_at (lists : list (list hitem)) (l i d : nat) : Prop :=
  ∃ items, lists !! l = Some items ∧ items !! i = Some (HRef d).

(** No object is shared: a list is the value of one key, a record is
    an element of one list, at one position; and every reference
    names an object of its store. *)
Definition unshared (st : hstate) : Prop :=
  (∀ k l, h_frontmatter st !! k = Some (HVList l) → l < length (h_lists st))
  ∧ (∀ k1 k2 l, h_frontmatter st !! k1 = Some (HVList l) →
                h_frontmatter st !! k2 = Some (HVList l) → k1 = k2)
  ∧ (∀ l i d, ref_at (h_lists st) l i d → d < length (h_dicts st))
  ∧ (∀ l1 l2 i j d, ref_at (h_lists st) l1 i d → ref_at (h_lists st) l2 j d →
                    l1 = l2 ∧ i = j).

(** What the loop keeps about its state. *)
Definition h_ok (st : hstate) : Prop :=
  aliases_ok st ∧ unshared st
  ∧ (∀ k, h_current_key st = Some k → is_Some (h_current_list st)).

(** The state of the loop without the stores: the dict as read out,
    the key that stands for [current_list], and whether [current_dict]
    is set. *)
Definition abstract (st : hstate) : pstate :=
  PState (read_out st) (h_current_key st)
         (bool_decide (is_Some (h_current_dict st))).

(** Every scalar of a metadata map is a non-empty string. *)
Definition scalars_nonempty (fm : gmap string yvalue) : Prop :=
  ∀ k v, fm !! k = Some (VStr v) → Str.is_empty v = false.

(** The first character of a text, if any, is white space. *)
Definition starts_blank (s : string) : Prop :=
  match s with
  | EmptyString => True
  | String c _ => Str.is_space c = true
  end.

(** ** Further example inputs *)

Module Cases.

(** [a] requires a file outside the index, which exists. *)
Definition ext_docs : list node :=
  [Examples.doc "a" ["/srv/shared/y.md"] []].
Definition g_ext : graph := Examples.index_of ext_docs.
Definition E_ext : env :=
  Posix.env_of [(Examples.knowledge_path "a", "a"); ("/srv/shared/y.md", "shared")].

(** A record that names no path. *)
Definition pathless : list (string * string) := [("when", "deploy")].

(** A record whose predicate has a repetition count [re] refuses. *)
Definition overflow : list (string * string) :=
  [("path", "p.md"); ("when", "a{4294967295}")].


(** [a] with a record whose search raises, behind a plain entry. *)
Definition overflow_docs : list node :=
  [Examples.doc "a" ["/srv/shared/y.md"] [IStr "plain.md"; IDict overflow]].
Definition g_overflow : graph := Examples.index_of overflow_docs.
Definition E_overflow : env := Examples.E_docs overflow_docs.

(** [path.suffix]: what follows the stem in the final component. *)
Definition path_suffix (p : string) : string :=
  Str.drop (String.length (Posix.path_stem p)) (Posix.path_name p).

(** Two documents with the id [a], a text file, a hidden file and a
    document without an id. *)
Definition doc_a : string :=
  marker +:+ nl +:+ "id: a" +:+ nl +:+ "type: domain" +:+ nl
  +:+ "requires:" +:+ nl +:+ "  - b" +:+ nl +:+ marker +:+ nl +:+ nl +:+ "First".

Definition doc_a' : string :=
  marker +:+ nl +:+ "id: a" +:+ nl +:+ "requires: xy" +:+ nl
  +:+ marker +:+ nl +:+ nl +:+ "Second".

Definition scan_files : list (string * string) :=
  [("/k/a.md", doc_a); ("/k/b.md", doc_a'); ("/k/notes.txt", "text");
   ("/k/.hidden.md", Examples.doc_hello); ("/k/c.yaml", "no header")].

Definition read_text (p : string) : option string := dict_get p scan_files.

Definition listing : list string :=
  ["/k/a.md"; "/k/b.md"; "/k/notes.txt"; "/k/.hidden.md"; "/k/missing.md";
   "/k/c.yaml"].

Definition E_scan : env := Posix.env_of scan_files.

Definition scan (l : list string) : result scanned :=
  scan_knowledge_files E_scan path_suffix read_text l.

(** The graph the builder returns for the listing. *)
Definition G_scan : scanned :=
  match scan listing with
  | Ok G => G
  | Raise _ => Scanned ∅ [] [] []
  end.

(** A document whose id is a list. *)
Definition doc_bad : string :=
  marker +:+ nl +:+ "id:" +:+ nl +:+ "  - a" +:+ nl +:+ marker +:+ nl.

End Cases.

(** * Properties *)

(** ** Dependency resolver *)

Section ResolverFacts.

Variable E : env.

Lemma bfs_fuel_mono g opt fuel :
  ∀ q v r out, bfs E g opt fuel q v r = Some out →
  ∀ fuel', fuel ≤ fuel' → bfs E g opt fuel' q v r = Some out.
Proof.
  induction fuel as [|fuel IH]; intros q v r out H fuel' Hle; [discriminate|].
  destruct fuel' as [|fuel']; [lia|].
  simpl in *. destruct q as [|x q]; [done|].
  case_bool_decide; [eapply IH; [done|lia]|].
  destruct (find_node E g x) as [[[id n]|]|e]; [| eapply IH; [done|lia] | done].
  destruct (enqueue E g _ (n_requires n) q) as [q1|e]; [|done].
  destruct (if opt then _ else _) as [q2|e]; [|done].
  eapply IH; [done|lia].
Qed.

(** Two runs of the loop that both finish agree, whatever their fuel. *)
Lemma bfs_fuel_agree g opt f1 f2 q v r out1 out2 :
  bfs E g opt f1 q v r = Some out1 →
  bfs E g opt f2 q v r = Some out2 → out1 = out2.
Proof.
  intros H1 H2.
  apply (bfs_fuel_mono _ _ _ _ _ _ _) with (fuel' := f1 `max` f2) in H1; [|lia].
  apply (bfs_fuel_mono _ _ _ _ _ _ _) with (fuel' := f1 `max` f2) in H2; [|lia].
  congruence.
Qed.

Lemma by_path_get_elem p bp i : by_path_get p bp = Some i → i ∈ bp.*2.
Proof.
  induction bp as [|[p' i'] bp IH]; simpl; [done|].
  destruct (String.eqb p' p); intros H; simplify_eq; set_solver.
Qed.

Lemma partial_match_elem ref bp i : partial_match E ref bp = Some i → i ∈ bp.*2.
Proof.
  induction bp as [|[p' i'] bp IH]; simpl; [done|].
  destruct (suffix_match _ _ _); intros H; simplify_eq; set_solver.
Qed.

Lemma resolve_node_id_universe g ref i :
  resolve_node_id E g ref = Ok (Some i) →
  i ∈ dom (nodes g) ∨ i ∈ (by_path g).*2.
Proof.
  unfold resolve_node_id. case_bool_decide as Hin.
  - intros [= <-]. left. by apply elem_of_dom.
  - destruct (expand_path E ref) as [p|]; [|done].
    destruct (by_path_get p (by_path g)) eqn:Hp.
    + intros [= <-]. right. eauto using by_path_get_elem.
    + intros [= H]. right. eauto using partial_match_elem.
Qed.

Lemma resolve_item_universe g it i entry :
  resolve_item E g it = Ok (Some i) → i ∈ universe g entry.
Proof.
  destruct it as [s|d]; simpl; [|done].
  intros [H|H]%resolve_node_id_universe; unfold universe; set_solver.
Qed.

Lemma enqueued_cons g v r refs i :
  enqueued E g v refs i → enqueued E g v (r :: refs) i.
Proof.
  intros (?&?&it&?&?). repeat split; [done..|].
  exists it. split; [set_solver|done].
Qed.

Lemma enqueue_app g v refs : ∀ q q',
  enqueue E g v refs q = Ok q' →
  ∃ ids, q' = q ++ ids ∧ length ids ≤ length refs
         ∧ Forall (enqueued E g v refs) ids.
Proof.
  induction refs as [|r refs IH]; simpl; intros q q' H.
  - exists []. simplify_eq. rewrite app_nil_r. by repeat split.
  - destruct (resolve_item E g r) as [[i|]|e] eqn:Hr; [| |done].
    + destruct (negb (Str.is_empty i) && bool_decide (i ∉ v)) eqn:Hc.
      * apply IH in H as (ids & -> & Hlen & Hall).
        exists (i :: ids). rewrite <- app_assoc. split; [done|].
        split; [simpl; lia|]. constructor.
        -- apply andb_true_iff in Hc as [Hne Hv].
           apply negb_true_iff in Hne. apply bool_decide_eq_true in Hv.
           repeat split; [done..|]. exists r. split; [set_solver|done].
        -- eapply Forall_impl; [exact Hall|]. intros; by apply enqueued_cons.
      * apply IH in H as (ids & -> & Hlen & Hall).
        exists ids. repeat split; [lia|].
        eapply Forall_impl; [exact Hall|]. intros; by apply enqueued_cons.
    + apply IH in H as (ids & -> & Hlen & Hall).
      exists ids. repeat split; [lia|].
      eapply Forall_impl; [exact Hall|]. intros; by apply enqueued_cons.
Qed.

Lemma find_node_lookup g x i n :
  find_node E g x = Ok (Some (i, n)) → nodes g !! i = Some n.
Proof.
  unfold find_node. destruct (nodes g !! x) eqn:Hx; [by intros [= <- <-]|].
  destruct (resolve_node_id E g x) as [[r|]|]; [|done..].
  destruct (Str.is_empty r); [done|].
  destruct (nodes g !! r) eqn:Hr; [|done]. by intros [= <- <-].
Qed.

Lemma degree_le_max g i n : nodes g !! i = Some n → degree n ≤ max_degree g.
Proof.
  intros H. unfold max_degree. apply max_list_elem_of_le.
  apply list_elem_of_fmap. exists n. split; [done|].
  apply list_elem_of_fmap. exists (i, n). split; [done|].
  by apply elem_of_map_to_list.
Qed.

(** The loop empties its queue: every iteration either drops a queue
    entry or visits a new element of the universe. *)
Lemma bfs_terminates g opt entry fuel : ∀ q v r,
  (∀ x, x ∈ q → x ∈ universe g entry) →
  length q + (max_degree g + 1) * size (universe g entry ∖ v) < fuel →
  is_Some (bfs E g opt fuel q v r).
Proof.
  induction fuel as [|fuel IH]; intros q v r Hq Hlt; [lia|].
  simpl. destruct q as [|x q]; [by eexists|].
  simpl in Hlt. case_bool_decide as Hx.
  { apply IH; [set_solver|lia]. }
  assert (Hsz : size (universe g entry ∖ ({[x]} ∪ v)) + 1
                = size (universe g entry ∖ v)).
  { replace (universe g entry ∖ ({[x]} ∪ v))
      with ((universe g entry ∖ v) ∖ {[x]}) by set_solver.
    rewrite size_difference, size_singleton by set_solver.
    assert (size (universe g entry ∖ v) ≠ 0); [|lia].
    apply size_non_empty_iff. set_solver. }
  destruct (find_node E g x) as [[[i n]|]|e] eqn:Hf; [| |by eexists].
  - pose proof (degree_le_max _ _ _ (find_node_lookup _ _ _ _ Hf)) as Hdeg.
    unfold degree in Hdeg.
    destruct (enqueue E g _ (n_requires n) q) as [q1|e] eqn:H1; [|by eexists].
    apply enqueue_app in H1 as (ids1 & -> & Hl1 & Ha1).
    assert (Hq1 : ∀ y, y ∈ q ++ ids1 → y ∈ universe g entry).
    { intros y [Hy|Hy]%elem_of_app; [set_solver|].
      rewrite Forall_forall in Ha1. destruct (Ha1 y Hy) as (_&_&it&_&Hit).
      eauto using resolve_item_universe. }
    destruct opt.
    + destruct (enqueue E g _ (n_optional n) _) as [q2|e] eqn:H2; [|by eexists].
      apply enqueue_app in H2 as (ids2 & -> & Hl2 & Ha2).
      apply IH.
      * intros y [Hy|Hy]%elem_of_app; [by apply Hq1|].
        rewrite Forall_forall in Ha2. destruct (Ha2 y Hy) as (_&_&it&_&Hit).
        eauto using resolve_item_universe.
      * rewrite !length_app. nia.
    + apply IH; [done|]. rewrite length_app. nia.
  - apply IH; [set_solver|nia].
Qed.

Lemma resolve_dependencies_terminates g entry opt :
  is_Some (resolve_dependencies E g entry opt).
Proof.
  unfold resolve_dependencies, fuel_bound.
  apply (bfs_terminates _ _ entry).
  - intros x ->%list_elem_of_singleton. unfold universe. set_solver.
  - replace (universe g entry ∖ ∅) with (universe g entry) by set_solver.
    simpl. lia.
Qed.

(** Any run of the loop that finishes returns what
    [resolve_dependencies] returns. *)
Lemma bfs_resolve_dependencies g entry opt fuel out :
  bfs E g opt fuel [entry] ∅ [] = Some out →
  resolve_dependencies E g entry opt = Some out.
Proof.
  intros H. destruct (resolve_dependencies_terminates g entry opt) as [out' H'].
  rewrite H'. f_equal. unfold resolve_dependencies in H'.
  eauto using bfs_fuel_agree.
Qed.

Lemma find_node_key g x n :
  nodes g !! x = Some n → find_node E g x = Ok (Some (x, n)).
Proof. unfold find_node. by intros ->. Qed.

Lemma enqueued_key g v refs i :
  wf_index g → enqueued E g v refs i → is_Some (nodes g !! i).
Proof.
  intros Hwf (_&_&it&_&Hit). destruct it as [s|]; [|done]. simpl in Hit.
  apply resolve_node_id_universe in Hit as [Hi|Hi]; [|by apply Hwf].
  by apply elem_of_dom.
Qed.

(** With node ids in the queue, every id is appended when it is first
    visited, hence once. *)
Lemma bfs_NoDup g opt fuel : wf_index g → ∀ q v r l,
  (∀ x, x ∈ q → is_Some (nodes g !! x)) →
  NoDup r → (∀ x, x ∈ r → x ∈ v) →
  bfs E g opt fuel q v r = Some (Ok l) → NoDup l.
Proof.
  intros Hwf. induction fuel as [|fuel IH]; intros q v r l Hq Hnd Hrv; [done|].
  simpl. destruct q as [|x q].
  { intros [= <-]. by apply NoDup_ListNoDup, List.NoDup_rev, NoDup_ListNoDup. }
  case_bool_decide as Hx; [apply IH; [set_solver|done..]|].
  destruct (Hq x) as [n Hn]; [set_solver|].
  rewrite (find_node_key _ _ _ Hn).
  destruct (enqueue E g _ (n_requires n) q) as [q1|e] eqn:H1; [|done].
  apply enqueue_app in H1 as (ids1 & -> & _ & Ha1).
  assert (Hq1 : ∀ y, y ∈ q ++ ids1 → is_Some (nodes g !! y)).
  { intros y [Hy|Hy]%elem_of_app; [set_solver|].
    rewrite Forall_forall in Ha1. eauto using enqueued_key. }
  assert (Hnd' : NoDup (r ++ [x])).
  { apply NoDup_app. split; [done|]. split; [|apply NoDup_singleton].
    intros y Hy ->%list_elem_of_singleton. by apply Hx, Hrv. }
  assert (Hrv' : ∀ y, y ∈ r ++ [x] → y ∈ ({[x]} ∪ v : gset string)).
  { intros y [Hy|Hy]%elem_of_app; set_solver. }
  destruct opt.
  - destruct (enqueue E g _ (n_optional n) _) as [q2|e] eqn:H2; [|done].
    apply enqueue_app in H2 as (ids2 & -> & _ & Ha2).
    apply IH; [|done..].
    intros y [Hy|Hy]%elem_of_app; [by apply Hq1|].
    rewrite Forall_forall in Ha2. eauto using enqueued_key.
  - by apply IH.
Qed.

Lemma resolve_dependencies_NoDup g entry opt l :
  wf_index g → is_Some (nodes g !! entry) →
  resolve_dependencies E g entry opt = Some (Ok l) → NoDup l.
Proof.
  intros Hwf He. apply bfs_NoDup; [done| |constructor|set_solver].
  by intros x ->%list_elem_of_singleton.
Qed.

End ResolverFacts.

Section ResolverClaims.

Variable E : env.

Lemma resolve_node_id_key g ref :
  is_Some (nodes g !! ref) → resolve_node_id E g ref = Ok (Some ref).
Proof. intros H. unfold resolve_node_id. by rewrite bool_decide_eq_true_2. Qed.

(** A two-node cycle entered at one of its node ids: both ids, once,
    the entry last. *)
Lemma resolve_two_cycle g A B nA nB :
  A ≠ B → Str.is_empty B = false →
  nodes g !! A = Some nA → nodes g !! B = Some nB →
  n_requires nA = [IStr B] → n_requires nB = [IStr A] →
  resolve_dependencies E g A false = Some (Ok [B; A]).
Proof.
  intros Hne HB HA HnB HrA HrB.
  apply (bfs_resolve_dependencies _ _ _ _ 3). simpl.
  rewrite bool_decide_eq_false_2 by set_solver.
  rewrite (find_node_key _ _ _ _ HA), HrA. simpl.
  rewrite (resolve_node_id_key g B) by eauto. rewrite HB. simpl.
  rewrite (bool_decide_eq_true_2 (B ∉ _)) by set_solver.
  rewrite bool_decide_eq_false_2 by set_solver.
  rewrite (find_node_key _ _ _ _ HnB), HrB. simpl.
  rewrite (resolve_node_id_key g A) by eauto.
  rewrite (bool_decide_eq_false_2 (A ∉ _)) by set_solver.
  by rewrite andb_false_r.
Qed.

(** C9. The dependency resolver is deterministic: for a fixed index,
    entry reference and include-optional flag it has exactly one
    outcome, and every run of its loop that finishes, with whatever
    iteration budget, returns that outcome, so two invocations return
    the same ordered list of node ids. *)
Theorem resolve_dependencies_deterministic g entry opt :
  ∃ out, resolve_dependencies E g entry opt = Some out
         ∧ ∀ fuel out', bfs E g opt fuel [entry] ∅ [] = Some out' → out' = out.
Proof.
  destruct (resolve_dependencies_terminates E g entry opt) as [out H].
  exists out. split; [done|]. intros fuel out' H'.
  apply bfs_resolve_dependencies in H'. congruence.
Qed.

End ResolverClaims.

Section OrderFacts.

Variable E : env.

(** A rank that every requires edge decreases rules out cycles. *)
Lemma acyclic_by_rank g (rank : string → nat) :
  (∀ X Y, req_edge E g X Y → rank Y < rank X) →
  ∀ X, ¬ tc (req_edge E g) X X.
Proof.
  intros Hrank X Hc.
  assert (Hlt : ∀ A B, tc (req_edge E g) A B → rank B < rank A).
  { induction 1 as [A B H|A B C H _ IH]; [by apply Hrank|].
    apply Hrank in H. lia. }
  apply Hlt in Hc. lia.
Qed.

End OrderFacts.

(** The requires edges of an example index, one by one: [Hn] finds the
    node among the documents, [Hit] the entry in its requires list, and
    [Hr] is what the entry resolves to. *)
Ltac example_edges Hn Hit Hr :=
  apply (elem_of_list_to_map_2 (M := gmap string)) in Hn;
  repeat (apply elem_of_cons in Hn as [Hn|Hn]; [injection Hn as -> ->|]);
  [..|by apply elem_of_nil in Hn]; simpl in Hit;
  repeat (apply elem_of_cons in Hit as [->|Hit]);
  try (by apply elem_of_nil in Hit);
  vm_compute in Hr; injection Hr as <-.

Lemma diamond_edges X Y :
  req_edge Examples.E_diamond Examples.g_diamond X Y →
  Examples.rank_diamond Y < Examples.rank_diamond X.
Proof.
  intros (n & it & Hn & Hit & Hr). example_edges Hn Hit Hr; vm_compute; lia.
Qed.

Lemma diamond_acyclic : acyclic_from Examples.E_diamond Examples.g_diamond "a".
Proof.
  intros X _.
  apply (acyclic_by_rank Examples.E_diamond _ Examples.rank_diamond), diamond_edges.
Qed.

Lemma diamond_c_requires_b : req_edge Examples.E_diamond Examples.g_diamond "c" "b".
Proof.
  exists (Examples.doc "c" ["b"] []), (IStr "b").
  split; [by vm_compute|]. split; [set_solver|by vm_compute].
Qed.

(** With the include-optional flag, a structured optional entry reaches
    [resolve_node_id], where the membership test on the node map raises:
    a dict is not hashable. *)
Lemma resolve_dependencies_optional_record_raises :
  resolve_dependencies Examples.E_pills Examples.g_pills "a" true
  = Some (Raise TypeError).
Proof. by vm_compute. Qed.

(** C1. On the acyclic index where [a] requires [b] and [c], and [c]
    requires [b], resolving [a] returns [c], [b], [a]: the edge
    ([c] requires [b]) has both ends in the result and [b] is not before
    [c], so the result is not topologically ordered. *)
Theorem resolve_dependencies_diamond_not_topological :
  resolve_dependencies Examples.E_diamond Examples.g_diamond "a" false
    = Some (Ok ["c"; "b"; "a"])
  ∧ acyclic_from Examples.E_diamond Examples.g_diamond "a"
  ∧ ¬ topo_ordered Examples.E_diamond Examples.g_diamond ["c"; "b"; "a"].
Proof.
  split; [by vm_compute|]. split; [apply diamond_acyclic|].
  intros Htopo.
  destruct (Htopo "c" "b" diamond_c_requires_b) as (i & j & Hi & Hj & Hlt);
    [set_solver..|].
  destruct i as [|[|[|i]]]; simplify_eq/=.
  destruct j as [|[|[|j]]]; simplify_eq/=. lia.
Qed.

(** C3. On the index with the two-node cycle [a] requires [b], [b]
    requires [a], resolving the file-name reference [a.md] returns [a],
    [b], [a]: the node id [a] occurs twice. *)
Theorem resolve_dependencies_cycle_duplicate :
  resolve_dependencies Examples.E_cycle Examples.g_cycle
    "a.md" false = Some (Ok ["a"; "b"; "a"])
  ∧ Examples.g_cycle.(nodes) !! "a.md" = None
  ∧ ¬ NoDup ["a"; "b"; "a"].
Proof.
  split; [by vm_compute|]. split; [by vm_compute|].
  intros Hnd. apply NoDup_cons in Hnd as [Hnd _]. set_solver.
Qed.

(** ** Header parser *)

Section StrFacts.

Lemma append_cons x (a b : string) : String x a +:+ b = String x (a +:+ b).
Proof. reflexivity. Qed.

Lemma append_nil_l (b : string) : EmptyString +:+ b = b.
Proof. reflexivity. Qed.

Lemma append_assoc (a b c : string) : (a +:+ b) +:+ c = a +:+ b +:+ c.
Proof.
  induction a as [|x a IH]; [done|]. by rewrite !append_cons, IH.
Qed.

Lemma drop_append (a b : string) n :
  Str.drop (String.length a + n) (a +:+ b) = Str.drop n b.
Proof. induction a as [|x a IH]; [done|]. rewrite append_cons. apply IH. Qed.

Lemma startswith_append p s : Str.startswith p (p +:+ s) = true.
Proof.
  induction p as [|x p IH]; [done|].
  rewrite append_cons. cbn. by rewrite Ascii.eqb_refl.
Qed.

Lemma startswith_spec p : ∀ s,
  Str.startswith p s = true → s = p +:+ Str.drop (String.length p) s.
Proof.
  induction p as [|x p IH]; intros s H; [done|].
  destruct s as [|y s]; [done|]. cbn in H.
  destruct (Ascii.eqb_spec x y) as [->|]; [|done].
  rewrite append_cons. cbn. f_equal. by apply IH.
Qed.

(** [find] returns the position of an occurrence. *)
Lemma find_spec sub : ∀ s p,
  Str.find sub s = Some p →
  s = Str.take p s +:+ sub +:+ Str.drop (p + String.length sub) s.
Proof.
  induction s as [|c s IH]; intros p; cbn.
  - destruct (Str.startswith sub EmptyString) eqn:Hs; [|done].
    intros [= <-]. by apply startswith_spec in Hs.
  - destruct (Str.startswith sub (String c s)) eqn:Hs.
    + intros [= <-]. by apply startswith_spec in Hs.
    + destruct (Str.find sub s) as [p'|]; [|done].
      intros [= <-]. cbn. rewrite append_cons. f_equal. by apply IH.
Qed.

Lemma split_nonempty c s : Str.split c s ≠ [].
Proof.
  destruct s as [|a s]; cbn; [done|].
  destruct (Ascii.eqb a c); [done|]. by destruct (Str.split c s).
Qed.

Lemma split_append c a b :
  Str.split c (a +:+ String c b) = Str.split c a ++ Str.split c b.
Proof.
  induction a as [|x a IH].
  - rewrite append_nil_l. cbn. by rewrite Ascii.eqb_refl.
  - rewrite append_cons. cbn. rewrite IH. destruct (Ascii.eqb x c); [done|].
    pose proof (split_nonempty c a). by destruct (Str.split c a).
Qed.

End StrFacts.

Section ParserFacts.

Lemma drop_marker s : Str.drop 3 (marker +:+ s) = s.
Proof. reflexivity. Qed.

(** After a header block closed at the first closing marker, the body
    is the text behind that marker without its first character. *)
Lemma parse_frontmatter_body header rest :
  Str.find closing (header +:+ closing +:+ rest) = Some (String.length header) →
  (parse_frontmatter (marker +:+ header +:+ closing +:+ rest)).2
    = Str.drop 1 rest.
Proof.
  intros Hfind. unfold parse_frontmatter.
  rewrite startswith_append, drop_marker, Hfind. cbn [negb snd].
  replace (String.length header + String.length closing + 3 + 1)
    with (3 + (String.length header + (String.length closing + 1))) by lia.
  change (Str.drop (3 + ?n) (marker +:+ ?s)) with (Str.drop n s).
  rewrite drop_append. apply (drop_append closing).
Qed.

(** A match of the closing pattern behind the first three characters is
    a closing marker line. *)
Lemma find_closing_line content p :
  Str.find closing (Str.drop 3 content) = Some p → has_closing_line content.
Proof.
  intros Hfind. apply find_spec in Hfind.
  assert (Hc : ∃ pre rest,
            content = pre +:+ String newline (marker +:+ String newline rest)).
  { exists (Str.take 3 content +:+ Str.take p (Str.drop 3 content)),
           (Str.drop (p + String.length closing) (Str.drop 3 content)).
    rewrite append_assoc.
    change (String newline (marker +:+ String newline ?r)) with (closing +:+ r).
    rewrite <- Hfind. clear.
    destruct content as [|a [|b [|c s]]]; reflexivity. }
  destruct Hc as (pre & rest & ->).
  exists (length (lines pre)). unfold lines. split.
  - pose proof (split_nonempty newline pre).
    destruct (Str.split newline pre); [done|simpl; lia].
  - rewrite !split_append, lookup_app_r by done.
    by rewrite Nat.sub_diag.
Qed.

End ParserFacts.

(** C2. The document [---], [id: a], [---], [Hello] has a well-formed
    header block and the text after its closing marker line is [Hello],
    but the header parser returns the body [ello]. *)
Theorem parse_frontmatter_body_hello :
  well_formed_header Examples.doc_hello
  ∧ text_after_header Examples.doc_hello = Some "Hello"
  ∧ (parse_frontmatter Examples.doc_hello).2 = "ello".
Proof.
  split; [|by vm_compute]. split; [by vm_compute|].
  exists 2. split; [lia|by vm_compute].
Qed.

(** C4. The header parser is a total function of the document text, and
    when the text does not start with the opening marker or has no closing
    marker line, it returns the empty metadata map and the whole text as
    body. *)
Theorem parse_frontmatter_fail_open content :
  (∃ fm body, parse_frontmatter content = (fm, body))
  ∧ (Str.startswith marker content = false ∨ ¬ has_closing_line content →
     parse_frontmatter content = (∅, content)).
Proof.
  split; [by destruct (parse_frontmatter content) as [fm body]; eauto|].
  intros H. unfold parse_frontmatter.
  destruct (Str.startswith marker content); [|done]. cbn [negb].
  destruct H as [|H]; [done|].
  destruct (Str.find closing (Str.drop 3 content)) as [p|] eqn:Hfind; [|done].
  exfalso. eauto using find_closing_line.
Qed.

Lemma parse_frontmatter_fail_open_witness :
  ¬ has_closing_line Examples.doc_open
  ∧ parse_frontmatter Examples.doc_open = (∅, Examples.doc_open).
Proof.
  assert (H : ¬ has_closing_line Examples.doc_open).
  { intros (i & Hi & Hl). vm_compute in Hl.
    destruct i as [|[|[|i]]]; [lia|discriminate..]. }
  split; [exact H|].
  destruct (parse_frontmatter_fail_open Examples.doc_open) as [_ Hopen].
  apply Hopen. by right.
Defined.

(** ** Reference resolver *)

Section ReferenceFacts.

Variable E : env.




End ReferenceFacts.



(** ** Context assembler *)

Section AssemblerFacts.

Variable E : env.

Lemma select_pills_spec pills optional : ∀ c,
  Forall has_path optional →
  select_pills E pills optional c
  = Collected (c_files c) (external_refs_required c)
      (external_refs_optional c
         ++ List.filter (pill_match E pills) (entry_path <$> optional))
      (skipped_optional c
         ++ List.filter (negb ∘ pill_match E pills) (entry_path <$> optional)).
Proof.
  induction optional as [|opt rest IH]; intros c Hp.
  - simpl. rewrite !app_nil_r. by destruct c.
  - apply Forall_cons in Hp as [Hopt Hrest].
    assert (Hpath : opt_path opt = Ok (entry_path opt)).
    { destruct opt as [s|d]; [done|]. simpl in *.
      unfold dict_get_default. by destruct Hopt as [p ->]. }
    cbn [select_pills fmap list_fmap List.filter compose]. rewrite Hpath.
    destruct (pill_match E pills (entry_path opt)); cbn [negb];
      rewrite IH by done; cbn; by rewrite <- !app_assoc.
Qed.

Lemma select_pills_required pills optional : ∀ c,
  external_refs_required (select_pills E pills optional c)
  = external_refs_required c.
Proof.
  induction optional as [|opt rest IH]; intros c; [done|]. simpl.
  destruct (opt_path opt); [|done].
  destruct (pill_match E pills a); by rewrite IH.
Qed.

Lemma collect_node_unloaded g task pills c i :
  loaded_node E g i = None → collect_node E g task pills c i = c.
Proof.
  unfold loaded_node, collect_node. destruct (nodes g !! i) as [n|]; [|done].
  destruct (Str.is_empty (n_path n)); [done|].
  destruct (fs_exists E (n_path n)); [|done].
  destruct (fs_read E (n_path n)); [|done].
  simpl. try rewrite bool_decide_eq_true_2 by eauto. done.
Qed.

(** A loaded node: its text is stored, its required externals are
    added, and its optional list is classified. *)
Lemma collect_node_loaded g task pills c i n :
  loaded_node E g i = Some n →
  ∃ text,
    let c1 := Collected (<[i := text]> (c_files c))
                (external_refs_required c ∪ required_externals (n_requires n))
                (external_refs_optional c) (skipped_optional c) in
    collect_node E g task pills c i
    = match n_optional n, pills with
      | [], _ => c1
      | optional, _ :: _ => select_pills E pills optional c1
      | optional, [] =>
          match parse_optional_deps E optional task with
          | Ok (to_load, skipped) =>
              Collected (c_files c1) (external_refs_required c1)
                (external_refs_optional c1 ++ to_load)
                (skipped_optional c1 ++ skipped)
          | Raise _ => c1
          end
      end.
Proof.
  unfold loaded_node, collect_node. destruct (nodes g !! i) as [n'|]; [|done].
  destruct (Str.is_empty (n_path n')); [done|].
  destruct (fs_exists E (n_path n')); [|done].
  destruct (fs_read E (n_path n')) as [text|]; [|done].
  cbn [negb andb]. rewrite bool_decide_eq_true_2 by eauto.
  intros [= ->]. exists text. cbv zeta.
  destruct (n_optional n) as [|o os]; [done|].
  by destruct pills.
Qed.

Lemma collect_node_required g task pills c i :
  external_refs_required (collect_node E g task pills c i)
  = external_refs_required c
    ∪ match loaded_node E g i with
      | Some n => required_externals (n_requires n)
      | None => ∅
      end.
Proof.
  destruct (loaded_node E g i) as [n|] eqn:Hl.
  - destruct (collect_node_loaded g task pills c i n Hl) as [text ->].
    destruct (n_optional n) as [|o os]; [done|].
    destruct pills; [|by rewrite select_pills_required].
    cbv zeta. by destruct (parse_optional_deps E _ task) as [[? ?]|].
  - rewrite collect_node_unloaded by done. set_solver.
Qed.

Lemma elem_of_required_externals s reqs :
  s ∈ required_externals reqs
  ↔ IStr s ∈ reqs ∧ (Str.startswith "~/gdrive" s || Str.startswith "/" s) = true.
Proof.
  unfold required_externals. rewrite elem_of_list_to_set, list_elem_of_omap.
  split.
  - intros (it & [Hext Hit]%list_elem_of_filter & Hs).
    destruct it as [s'|]; [|done]. simpl in Hs. by simplify_eq.
  - intros [Hin Hext]. exists (IStr s). split; [|done].
    by apply list_elem_of_filter.
Qed.

(** C8, amended. During context assembly a requires entry is scheduled
    as a required external iff it is an entry of the requires list of a
    loaded node and is a string that starts with [/] or with
    [~/gdrive]. *)
Theorem collect_required_externals g deps task pills s :
  s ∈ external_refs_required (collect E g deps task pills)
  ↔ ∃ n, n ∈ loaded E g deps ∧ IStr s ∈ n_requires n
         ∧ (Str.startswith "~/gdrive" s || Str.startswith "/" s) = true.
Proof.
  unfold collect.
  assert (Hgen : ∀ c,
    s ∈ external_refs_required (fold_left (collect_node E g task pills) deps c)
    ↔ s ∈ external_refs_required c
      ∨ ∃ n, n ∈ loaded E g deps ∧ IStr s ∈ n_requires n
             ∧ (Str.startswith "~/gdrive" s || Str.startswith "/" s) = true).
  { induction deps as [|i deps IH]; intros c; simpl.
    - split; [by left|]. intros [?|(n & Hn & _)]; [done|].
      by apply elem_of_nil in Hn.
    - rewrite IH, collect_node_required, elem_of_union. unfold loaded. simpl.
      destruct (loaded_node E g i) as [n|].
      + rewrite elem_of_required_externals. split.
        * intros [[?|[? ?]]|(n' & ? & ?)]; [by left| |].
          -- right. exists n. split; [by left|done].
          -- right. exists n'. split; [by right|done].
        * intros [?|(n' & [->|Hn']%elem_of_cons & ?)]; [by left;left| |].
          -- by left; right.
          -- right. by exists n'.
      + split.
        * intros [[?|Hs]|?]; [by left| |by right]. by apply elem_of_empty in Hs.
        * intros [?|?]; [by left;left|by right]. }
  rewrite Hgen. split; [|by right]. intros [Hs|?]; [|done].
  by apply elem_of_empty in Hs.
Qed.







End AssemblerFacts.





(** C8 as stated fails on the requires entry [~/notes/x.md] of the loaded
    node [a]: it has a home-relative prefix and lies under no corpus
    root, yet it is not scheduled; only [/srv/shared/y.md] is. *)
Lemma collect_required_externals_not_as_stated :
  (∃ n, n ∈ loaded Examples.E_notes Examples.g_notes ["b"; "a"]
        ∧ IStr "~/notes/x.md" ∈ n_requires n)
  ∧ points_outside_corpus Examples.E_notes "~/notes/x.md" = true
  ∧ ("~/notes/x.md" ∉ external_refs_required
       (collect Examples.E_notes Examples.g_notes ["b"; "a"] "" []))
  ∧ elements (external_refs_required
       (collect Examples.E_notes Examples.g_notes ["b"; "a"] "" []))
    = ["/srv/shared/y.md"].
Proof.
  split.
  - exists (Examples.doc "a" ["b"; "~/notes/x.md"; "/srv/shared/y.md"] []).
    split; [|set_solver]. apply list_elem_of_In. vm_compute. tauto.
  - split; [by vm_compute|].
    assert (Hel : elements (external_refs_required
              (collect Examples.E_notes Examples.g_notes ["b"; "a"] "" []))
            = ["/srv/shared/y.md"]) by (by vm_compute).
    split; [|exact Hel].
    intros H%elem_of_elements. rewrite Hel in H.
    by apply list_elem_of_singleton in H.
Qed.

(** ** Entry references that are not node ids *)

Section EntryFacts.

Variable E : env.

(** The ids appended so far end the result. *)
Lemma bfs_resolved_suffix g opt fuel : ∀ q v res l,
  bfs E g opt fuel q v res = Some (Ok l) → ∃ more, l = rev more ++ rev res.
Proof.
  induction fuel as [|fuel IH]; intros q v res l; [done|]. simpl.
  destruct q as [|x q]; [intros [= <-]; by exists []|].
  case_bool_decide; [apply IH|].
  destruct (find_node E g x) as [[[i n]|]|e]; [|apply IH|done].
  destruct (enqueue E g _ (n_requires n) q) as [q1|]; [|done].
  destruct (if opt then _ else _) as [q2|]; [|done].
  intros (more & ->)%IH. exists (i :: more).
  rewrite rev_unit. simpl. by rewrite <- app_assoc.
Qed.

Lemma find_node_fallback g entry r n :
  nodes g !! entry = None → resolve_node_id E g entry = Ok (Some r) →
  Str.is_empty r = false → nodes g !! r = Some n →
  find_node E g entry = Ok (Some (r, n)).
Proof. unfold find_node. by intros -> -> -> ->. Qed.

(** The node the entry stands for is the last of the resolved list. *)
Lemma resolve_dependencies_entry_last g entry opt r n deps :
  find_node E g entry = Ok (Some (r, n)) →
  resolve_dependencies E g entry opt = Some (Ok deps) → last deps = Some r.
Proof.
  intros Hf. unfold resolve_dependencies.
  destruct (fuel_bound g entry) as [|fuel]; [done|]. simpl.
  rewrite bool_decide_eq_false_2, Hf by set_solver.
  destruct (enqueue E g _ (n_requires n) []) as [q1|]; [|done].
  destruct (if opt then _ else _) as [q2|]; [|done].
  intros (more & ->)%bfs_resolved_suffix. simpl. by rewrite last_snoc.
Qed.

(** [enqueue] only reads the visited set at the ids the list resolves
    to. *)
Lemma enqueue_ext g v1 v2 refs : ∀ q,
  (∀ it y, it ∈ refs → resolve_item E g it = Ok (Some y) →
           (y ∈ v1 ↔ y ∈ v2)) →
  enqueue E g v1 refs q = enqueue E g v2 refs q.
Proof.
  induction refs as [|it refs IH]; intros q Hv; [done|]. simpl.
  destruct (resolve_item E g it) as [[y|]|e] eqn:Hit; [| |done].
  - assert (Hy : bool_decide (y ∉ v1) = bool_decide (y ∉ v2)).
    { apply bool_decide_ext. rewrite (Hv it y); [done|set_solver|done]. }
    rewrite Hy. destruct (_ && _); apply IH; intros; apply (Hv it0); set_solver.
  - apply IH. intros; apply (Hv it0); set_solver.
Qed.

(** Behind the first iteration, the loop entered at a path reference
    and the loop entered at the node id it resolves to run in lockstep,
    when that node lies on no requires cycle: no id in the queue is the
    reference or the node id. *)
Lemma bfs_sim g entry r fuel :
  wf_index g → nodes g !! entry = None → ¬ tc (req_edge E g) r r →
  ∀ q v1 v2 res,
    (∀ y, y ≠ entry → y ≠ r → (y ∈ v1 ↔ y ∈ v2)) →
    (∀ x, x ∈ q → tc (req_edge E g) r x ∧ is_Some (nodes g !! x)) →
    bfs E g false fuel q v1 res = bfs E g false fuel q v2 res.
Proof.
  intros Hwf Hentry Hacyc.
  induction fuel as [|fuel IH]; intros q v1 v2 res Hv Hq; [done|]. simpl.
  destruct q as [|x q]; [done|].
  destruct (Hq x) as [Hrx [n Hn]]; [set_solver|].
  assert (Hxe : x ≠ entry) by congruence.
  assert (Hxr : x ≠ r) by (intros ->; done).
  rewrite (bool_decide_ext (x ∈ v1) (x ∈ v2)) by auto.
  case_bool_decide as Hx; [apply IH; [done|set_solver]|].
  rewrite (find_node_key _ _ _ _ Hn).
  assert (Hedge : ∀ it y, it ∈ n_requires n →
            resolve_item E g it = Ok (Some y) →
            tc (req_edge E g) r y ∧ is_Some (nodes g !! y)).
  { intros it y Hit Hy. split.
    - eapply tc_r; [done|]. by exists n, it.
    - destruct it as [s|]; [|done]. simpl in Hy.
      apply resolve_node_id_universe in Hy as [Hy|Hy]; [|by apply Hwf].
      by apply elem_of_dom. }
  assert (Hv' : ∀ y, y ≠ entry → y ≠ r →
            (y ∈ ({[x]} ∪ v1 : gset string) ↔ y ∈ ({[x]} ∪ v2 : gset string))).
  { intros y ? ?. rewrite !elem_of_union, (Hv y) by done. done. }
  rewrite (enqueue_ext g ({[x]} ∪ v1) ({[x]} ∪ v2)).
  2:{ intros it y Hit Hy. destruct (Hedge it y Hit Hy) as [Hry [ny Hny]].
      apply Hv'; [congruence|]. by intros ->. }
  destruct (enqueue E g _ (n_requires n) q) as [q1|] eqn:H1; [|done].
  apply enqueue_app in H1 as (ids & -> & _ & Hids).
  apply IH; [done|].
  intros y [Hy|Hy]%elem_of_app; [set_solver|].
  rewrite Forall_forall in Hids. destruct (Hids y Hy) as (_ & _ & it & ? & ?).
  eauto.
Qed.

(** Entered at a path reference whose node lies on no requires cycle,
    the resolver returns what it returns for the node id. *)
Lemma resolve_dependencies_entry_eq g entry r n out :
  wf_index g → nodes g !! entry = None →
  find_node E g entry = Ok (Some (r, n)) → ¬ tc (req_edge E g) r r →
  resolve_dependencies E g entry false = Some out →
  resolve_dependencies E g r false = Some out.
Proof.
  intros Hwf Hentry Hf Hacyc H.
  pose proof (find_node_lookup _ _ _ _ _ Hf) as Hn.
  apply (bfs_resolve_dependencies _ _ _ _ (fuel_bound g entry)).
  unfold resolve_dependencies in H.
  destruct (fuel_bound g entry) as [|fuel]; [done|]. simpl in *.
  rewrite bool_decide_eq_false_2 in * by set_solver.
  rewrite Hf in H. rewrite (find_node_key _ _ _ _ Hn).
  assert (Hedge : ∀ it y, it ∈ n_requires n →
            resolve_item E g it = Ok (Some y) →
            tc (req_edge E g) r y ∧ is_Some (nodes g !! y)).
  { intros it y Hit Hy. split.
    - apply tc_once. by exists n, it.
    - destruct it as [s|]; [|done]. simpl in Hy.
      apply resolve_node_id_universe in Hy as [Hy|Hy]; [|by apply Hwf].
      by apply elem_of_dom. }
  assert (Hv : ∀ y, y ≠ entry → y ≠ r →
            (y ∈ ({[r]} ∪ ∅ : gset string)
             ↔ y ∈ ({[entry]} ∪ ∅ : gset string))).
  { intros y ? ?. set_solver. }
  rewrite (enqueue_ext g ({[r]} ∪ ∅) ({[entry]} ∪ ∅)).
  2:{ intros it y Hit Hy. destruct (Hedge it y Hit Hy) as [Hry [ny Hny]].
      apply Hv; [congruence|]. by intros ->. }
  destruct (enqueue E g _ (n_requires n) []) as [q1|] eqn:H1; [|done].
  apply enqueue_app in H1 as (ids & -> & _ & Hids).
  rewrite <- H. apply (bfs_sim g entry r); [done..|].
  intros y Hy. simpl in Hy.
  rewrite Forall_forall in Hids. destruct (Hids y Hy) as (_ & _ & it & ? & ?).
  eauto.
Qed.

Lemma append_new_prefix wf_deps : ∀ deps, deps `prefix_of` append_new deps wf_deps.
Proof.
  induction wf_deps as [|d rest IH]; intros deps; simpl; [done|].
  case_bool_decide; [apply IH|].
  etrans; [|apply IH]. by apply prefix_app_r.
Qed.

Lemma workflow_deps_terminates g workflow : is_Some (workflow_deps E g workflow).
Proof.
  unfold workflow_deps. destruct workflow as [w|]; [|by eexists].
  destruct (Str.is_empty w); [by eexists|].
  apply resolve_dependencies_terminates.
Qed.

(** For an entry reference that is not a node id but resolves, through
    the path or file-name fallback, to the node [r]: the resolver's list
    for the reference ends with [r] behind its dependencies, and is the
    list of [r] itself when [r] lies on no requires cycle of a
    well-formed index; the bundle holds that list (followed by the
    workflow's new ids), its entry field is the raw reference, and its
    type, specialist and title are all absent.  The only other outcome is
    an exception of the resolver, passed on. *)
Lemma build_context_path_entry g entry workflow task pills r n :
  nodes g !! entry = None →
  resolve_node_id E g entry = Ok (Some r) →
  Str.is_empty r = false → nodes g !! r = Some n →
  ∃ out, resolve_dependencies E g entry false = Some out ∧
    match out with
    | Raise e => build_context E g entry workflow task pills = Some (Raise e)
    | Ok deps =>
        last deps = Some r
        ∧ (wf_index g → ¬ tc (req_edge E g) r r →
           resolve_dependencies E g r false = Some (Ok deps))
        ∧ ∃ wout, workflow_deps E g workflow = Some wout ∧
            match wout with
            | Raise e =>
                build_context E g entry workflow task pills = Some (Raise e)
            | Ok wf_deps =>
                ∃ b, build_context E g entry workflow task pills = Some (Ok b)
                     ∧ b_entry b = entry
                     ∧ b_nodes b = append_new deps wf_deps
                     ∧ deps `prefix_of` b_nodes b
                     ∧ b_metadata b = (None, None, None)
            end
    end.
Proof.
  intros Hentry Hres Hne Hn.
  pose proof (find_node_fallback _ _ _ _ Hentry Hres Hne Hn) as Hf.
  destruct (resolve_dependencies_terminates E g entry false) as [out Hout].
  exists out. split; [done|]. unfold build_context. rewrite Hout.
  destruct out as [deps|e]; [|done].
  split; [eauto using resolve_dependencies_entry_last|].
  split; [eauto using resolve_dependencies_entry_eq|].
  destruct (workflow_deps_terminates g workflow) as [wout Hw].
  exists wout. split; [done|]. rewrite Hw.
  destruct wout as [wf_deps|e]; [|done].
  eexists. split; [done|]. simpl. rewrite Hentry.
  repeat split; [apply append_new_prefix].
Qed.

End EntryFacts.

Lemma chain_edges X Y :
  req_edge Examples.E_chain Examples.g_chain X Y →
  Examples.rank_chain Y < Examples.rank_chain X.
Proof.
  intros (n & it & Hn & Hit & Hr). example_edges Hn Hit Hr; vm_compute; lia.
Qed.

Lemma chain_acyclic X : ¬ tc (req_edge Examples.E_chain Examples.g_chain) X X.
Proof. apply (acyclic_by_rank Examples.E_chain _ Examples.rank_chain), chain_edges. Qed.

(** The index the graph builder leaves is well-formed. *)
Lemma index_of_wf docs : wf_index (Examples.index_of docs).
Proof.
  intros i Hi. simpl in *.
  destruct (list_to_map _ !! i) eqn:Hl; [by eexists|].
  apply not_elem_of_list_to_map in Hl. exfalso. apply Hl.
  rewrite <- !list_fmap_compose in *. exact Hi.
Qed.

(** The chain [a] requires [b] entered at [a.md]: the bundle names the
    raw reference, lists [b], [a] as resolving [a] does, and has no
    metadata. *)
Lemma build_context_chain_path_entry :
  ∃ b, build_context Examples.E_chain Examples.g_chain "a.md" None "" []
       = Some (Ok b)
       ∧ b_entry b = "a.md" ∧ b_nodes b = ["b"; "a"]
       ∧ b_metadata b = (None, None, None)
       ∧ resolve_dependencies Examples.E_chain Examples.g_chain "a" false
         = Some (Ok (b_nodes b)).
Proof.
  destruct (build_context_path_entry Examples.E_chain Examples.g_chain "a.md"
              None "" [] "a" (Examples.doc "a" ["b"] [])
              eq_refl eq_refl eq_refl eq_refl) as (out & Hout & H).
  vm_compute in Hout. injection Hout as <-.
  destruct H as (_ & Hr & wout & Hw & H). injection Hw as <-.
  destruct H as (b & Hb & He & Hnodes & _ & Hm).
  exists b. rewrite Hnodes.
  split; [exact Hb|]. split; [exact He|]. split; [reflexivity|].
  split; [exact Hm|].
  apply Hr; [apply index_of_wf|apply chain_acyclic].
Qed.

(** C10. On the index with the two-node cycle [a] requires [b], [b]
    requires [a], the reference [a.md] is no node id and resolves to
    [a].  The bundle assembled for [a.md] names the raw reference as its
    entry and has no type, specialist or title, but its node list is
    [a], [b], [a], not the list [b], [a] of the node [a]. *)
Theorem build_context_cycle_path_entry :
  nodes Examples.g_cycle !! "a.md" = None
  ∧ resolve_node_id Examples.E_cycle Examples.g_cycle "a.md" = Ok (Some "a")
  ∧ resolve_dependencies Examples.E_cycle Examples.g_cycle "a" false
    = Some (Ok ["b"; "a"])
  ∧ match build_context Examples.E_cycle Examples.g_cycle "a.md" None "" [] with
    | Some (Ok b) =>
        b_nodes b = ["a"; "b"; "a"] ∧ b_entry b = "a.md"
        ∧ b_metadata b = (None, None, None)
    | _ => False
    end.
Proof.
  split; [by vm_compute|]. split; [by vm_compute|]. split; [by vm_compute|].
  vm_compute. by repeat split.
Qed.

(** * Further properties *)

(** ** Dependency resolver: what the list holds *)

Section ResolverContents.

Variable E : env.

Lemma elem_of_rev (x : string) (l : list string) : x ∈ rev l ↔ x ∈ l.
Proof. rewrite !list_elem_of_In. symmetry. apply in_rev. Qed.

Lemma bfs_keys g opt fuel : ∀ q v res l,
  (∀ x, x ∈ res → is_Some (nodes g !! x)) →
  bfs E g opt fuel q v res = Some (Ok l) →
  ∀ x, x ∈ l → is_Some (nodes g !! x).
Proof.
  induction fuel as [|fuel IH]; intros q v res l Hres; [done|]. simpl.
  destruct q as [|x q].
  { intros [= <-] y Hy. apply Hres. by rewrite elem_of_rev in Hy. }
  case_bool_decide; [by apply IH|].
  destruct (find_node E g x) as [[[i n]|]|e] eqn:Hf; [|by apply IH|done].
  destruct (enqueue E g _ (n_requires n) q) as [q1|]; [|done].
  destruct (if opt then _ else _) as [q2|]; [|done].
  apply IH. intros y [Hy| ->%list_elem_of_singleton]%elem_of_app; [by apply Hres|].
  apply find_node_lookup in Hf. by eexists.
Qed.

(** X1. Every id in the resolved list is the id of an indexed node: a
    reference that resolves to nothing is left out, and a reference that
    resolves through a path enters under the node id. *)
Theorem resolve_dependencies_keys g entry opt l :
  resolve_dependencies E g entry opt = Some (Ok l) →
  ∀ x, x ∈ l → is_Some (nodes g !! x).
Proof. apply bfs_keys. intros x Hx. by apply elem_of_nil in Hx. Qed.

(** X2. What the entry decides: when looking the entry up raises, so
    does the resolver; an entry that is no node id and resolves to
    nothing gives the empty list; and when the entry stands for the node
    [r], every list the resolver returns ends with [r]. *)
Theorem resolve_dependencies_entry g entry opt :
  match find_node E g entry with
  | Raise e => resolve_dependencies E g entry opt = Some (Raise e)
  | Ok None => resolve_dependencies E g entry opt = Some (Ok [])
  | Ok (Some (r, n)) =>
      ∃ out, resolve_dependencies E g entry opt = Some out
             ∧ ∀ l, out = Ok l → last l = Some r
  end.
Proof.
  destruct (find_node E g entry) as [[[r n]|]|e] eqn:Hf.
  - destruct (resolve_dependencies_terminates E g entry opt) as [out Hout].
    exists out. split; [done|]. intros l ->.
    eauto using resolve_dependencies_entry_last.
  - unfold resolve_dependencies, fuel_bound. simpl.
    by rewrite bool_decide_eq_false_2, Hf by set_solver.
  - unfold resolve_dependencies, fuel_bound. simpl.
    by rewrite bool_decide_eq_false_2, Hf by set_solver.
Qed.

(** [enqueue] keeps the queue and appends every id the list resolves to,
    unless it is empty or visited. *)
Lemma enqueue_complete g v refs : ∀ q q',
  enqueue E g v refs q = Ok q' →
  (∀ x, x ∈ q → x ∈ q')
  ∧ ∀ it y, it ∈ refs → resolve_item E g it = Ok (Some y) →
            Str.is_empty y = false → y ∈ v ∨ y ∈ q'.
Proof.
  induction refs as [|r refs IH]; simpl; intros q q' H.
  - simplify_eq. split; [done|]. intros it y Hit. by apply elem_of_nil in Hit.
  - destruct (resolve_item E g r) as [[i|]|e] eqn:Hr; [| |done].
    + destruct (negb (Str.is_empty i) && bool_decide (i ∉ v)) eqn:Hc;
        apply IH in H as [Hq Hall]; (split; [intros; apply Hq; set_solver|]);
        intros it y Hit Hy He; apply elem_of_cons in Hit as [->|Hit];
        try (by eapply Hall).
      * assert (i = y) as -> by congruence.
        right. apply Hq, elem_of_app. right. by left.
      * assert (i = y) as -> by congruence. rewrite He in Hc. simpl in Hc.
        apply bool_decide_eq_false in Hc. left.
        destruct (decide (y ∈ v)); [done|by exfalso; apply Hc].
    + apply IH in H as [Hq Hall]. split; [done|].
      intros it y Hit Hy He; apply elem_of_cons in Hit as [->|Hit];
        [congruence|by eapply Hall].
Qed.

(** The loop invariant of completeness: a visited node id is resolved,
    and what a resolved node depends on is visited or queued. *)
Lemma bfs_closed g opt fuel : ∀ q v res l,
  (∀ x, x ∈ v → is_Some (nodes g !! x) → x ∈ res) →
  (∀ x y, x ∈ res → dep_edge E g opt x y → y ∈ v ∨ y ∈ q) →
  bfs E g opt fuel q v res = Some (Ok l) →
  ∀ x y, x ∈ l → dep_edge E g opt x y → is_Some (nodes g !! y) → y ∈ l.
Proof.
  induction fuel as [|fuel IH]; intros q v res l Hv Hres; [done|]. simpl.
  destruct q as [|x q].
  { intros [= <-] a y Ha Hay Hy. rewrite elem_of_rev in *.
    destruct (Hres a y Ha Hay) as [?|Hn]; [by apply Hv|by apply elem_of_nil in Hn]. }
  case_bool_decide as Hx.
  { apply IH; [done|]. intros a y Ha Hay.
    destruct (Hres a y Ha Hay) as [?|[->|?]%elem_of_cons]; auto. }
  destruct (find_node E g x) as [[[i n]|]|e] eqn:Hf; [| |done].
  - destruct (enqueue E g _ (n_requires n) q) as [q1|] eqn:H1; [|done].
    destruct (if opt then _ else _) as [q2|] eqn:H2; [|done].
    apply enqueue_complete in H1 as [Hq1 Hc1].
    assert (Hq2 : ∀ z, z ∈ q1 → z ∈ q2).
    { destruct opt; [|by simplify_eq]. by apply enqueue_complete in H2 as [? _]. }
    apply IH.
    + intros z [->%elem_of_singleton|Hz]%elem_of_union Hk.
      * destruct Hk as [m Hm]. rewrite (find_node_key _ _ _ _ Hm) in Hf.
        simplify_eq. set_solver.
      * apply elem_of_app. left. by apply Hv.
    + intros a y [Ha| ->%list_elem_of_singleton]%elem_of_app Hay.
      * destruct (Hres a y Ha Hay) as [?|[->|?]%elem_of_cons];
          [left; set_solver|left; set_solver|right; auto].
      * destruct Hay as (n' & it & Hn' & Hit & Hy & He).
        rewrite (find_node_lookup _ _ _ _ _ Hf) in Hn'. simplify_eq.
        destruct Hit as [Hit|[-> Hit]].
        -- destruct (Hc1 it y Hit Hy He); [by left|right; auto].
        -- apply enqueue_complete in H2 as [_ Hc2].
           destruct (Hc2 it y Hit Hy He); [by left|by right].
  - apply IH.
    + intros z [->%elem_of_singleton|Hz]%elem_of_union Hk; [|by apply Hv].
      destruct Hk as [m Hm]. by rewrite (find_node_key _ _ _ _ Hm) in Hf.
    + intros a y Ha Hay.
      destruct (Hres a y Ha Hay) as [?|[->|?]%elem_of_cons];
        [left; set_solver|left; set_solver|by right].
Qed.

(** X3. Nothing required is dropped: when the entry stands for the node
    [r], the resolved list holds every indexed node that can be reached
    from [r] along requires entries (and optional entries, with the
    flag) that resolve. *)
Theorem resolve_dependencies_complete g entry opt r n l :
  find_node E g entry = Ok (Some (r, n)) →
  resolve_dependencies E g entry opt = Some (Ok l) →
  ∀ y, rtc (dep_edge E g opt) r y → is_Some (nodes g !! y) → y ∈ l.
Proof.
  intros Hf Hl.
  assert (Hr : r ∈ l).
  { apply resolve_dependencies_entry_last with (r := r) (n := n) in Hl as Hlast;
      [|done]. by apply last_Some_elem_of. }
  assert (Hclosed : ∀ x y, x ∈ l → dep_edge E g opt x y →
                           is_Some (nodes g !! y) → y ∈ l).
  { eapply bfs_closed; [| |exact Hl].
    - intros x Hx. by apply elem_of_empty in Hx.
    - intros x y Hx. by apply elem_of_nil in Hx. }
  clear Hf Hl. intros y Hry. revert Hr.
  induction Hry as [x|x z y Hxz Hzy IH]; [auto|].
  intros Hx Hy. apply IH; [|done]. apply (Hclosed x); [done..|].
  inversion Hzy as [|? w ? Hzw]; subst; [done|].
  destruct Hzw as (m & _ & Hm & _). by eexists.
Qed.

(** The first iteration of the loop. *)
Lemma resolve_dependencies_first g entry opt :
  ∃ fuel,
    resolve_dependencies E g entry opt
    = match find_node E g entry with
      | Raise e => Some (Raise e)
      | Ok None => bfs E g opt fuel [] ({[entry]} ∪ ∅) []
      | Ok (Some (i, n)) =>
          match enqueue E g ({[entry]} ∪ ∅) (n_requires n) [] with
          | Raise e => Some (Raise e)
          | Ok q1 =>
              match (if opt then enqueue E g ({[entry]} ∪ ∅) (n_optional n) q1
                     else Ok q1) with
              | Raise e => Some (Raise e)
              | Ok q2 => bfs E g opt fuel q2 ({[entry]} ∪ ∅) [i]
              end
          end
      end.
Proof.
  exists (S ((max_degree g + 1) * size (universe g entry))).
  unfold resolve_dependencies, fuel_bound.
  change (2 + ?x) with (S (S x)). generalize (S ((max_degree g + 1) * size (universe g entry))).
  intros fuel. simpl. by rewrite bool_decide_eq_false_2 by set_solver.
Qed.

Lemma enqueued_dep_edge g opt v x n i :
  nodes g !! x = Some n →
  enqueued E g v (n_requires n) i
  ∨ (opt = true ∧ enqueued E g v (n_optional n) i) →
  dep_edge E g opt x i.
Proof.
  intros Hn [(_ & He & it & Hit & Hr)|[Ho (_ & He & it & Hit & Hr)]];
    exists n, it; auto.
Qed.

Lemma bfs_reachable g opt r fuel : wf_index g → ∀ q v res l,
  (∀ x, x ∈ q → rtc (dep_edge E g opt) r x ∧ is_Some (nodes g !! x)) →
  (∀ x, x ∈ res → rtc (dep_edge E g opt) r x) →
  bfs E g opt fuel q v res = Some (Ok l) →
  ∀ y, y ∈ l → rtc (dep_edge E g opt) r y.
Proof.
  intros Hwf. induction fuel as [|fuel IH]; intros q v res l Hq Hres; [done|].
  simpl. destruct q as [|x q].
  { intros [= <-] y Hy. apply Hres. by rewrite elem_of_rev in Hy. }
  case_bool_decide; [apply IH; [set_solver|done]|].
  destruct (Hq x) as [Hrx [n Hn]]; [set_solver|].
  rewrite (find_node_key _ _ _ _ Hn).
  destruct (enqueue E g _ (n_requires n) q) as [q1|] eqn:H1; [|done].
  apply enqueue_app in H1 as (ids1 & -> & _ & Ha1). rewrite Forall_forall in Ha1.
  assert (Hq1 : ∀ y, y ∈ q ++ ids1 →
                     rtc (dep_edge E g opt) r y ∧ is_Some (nodes g !! y)).
  { intros y [Hy|Hy]%elem_of_app; [set_solver|]. split.
    - eapply rtc_r; [done|]. eapply enqueued_dep_edge; eauto.
    - eauto using enqueued_key. }
  assert (Hres' : ∀ y, y ∈ res ++ [x] → rtc (dep_edge E g opt) r y).
  { intros y [Hy| ->%list_elem_of_singleton]%elem_of_app; auto. }
  destruct opt.
  - destruct (enqueue E g _ (n_optional n) _) as [q2|] eqn:H2; [|done].
    apply enqueue_app in H2 as (ids2 & -> & _ & Ha2). rewrite Forall_forall in Ha2.
    apply IH; [|done]. intros y [Hy|Hy]%elem_of_app; [by apply Hq1|]. split.
    + eapply rtc_r; [done|]. eapply enqueued_dep_edge; eauto.
    + eauto using enqueued_key.
  - by apply IH.
Qed.

(** X4. Nothing else is added: on a well-formed index, when the entry
    stands for the node [r], every id of the resolved list can be reached
    from [r] along requires entries (and optional entries, with the
    flag) that resolve. *)
Theorem resolve_dependencies_reachable g entry opt r n l :
  wf_index g → find_node E g entry = Ok (Some (r, n)) →
  resolve_dependencies E g entry opt = Some (Ok l) →
  ∀ y, y ∈ l → rtc (dep_edge E g opt) r y.
Proof.
  intros Hwf Hf. pose proof (find_node_lookup _ _ _ _ _ Hf) as Hn.
  destruct (resolve_dependencies_first g entry opt) as [fuel ->]. rewrite Hf.
  destruct (enqueue E g _ (n_requires n) []) as [q1|] eqn:H1; [|done].
  apply enqueue_app in H1 as (ids1 & -> & _ & Ha1). rewrite Forall_forall in Ha1.
  assert (Hq1 : ∀ y, y ∈ [] ++ ids1 →
                     rtc (dep_edge E g opt) r y ∧ is_Some (nodes g !! y)).
  { intros y Hy. simpl in Hy. split.
    - apply rtc_once. eapply enqueued_dep_edge; eauto.
    - eauto using enqueued_key. }
  assert (Hres : ∀ y, y ∈ [] ++ [r] → rtc (dep_edge E g opt) r y).
  { intros y ->%list_elem_of_singleton. done. }
  destruct opt.
  - destruct (enqueue E g _ (n_optional n) _) as [q2|] eqn:H2; [|done].
    apply enqueue_app in H2 as (ids2 & -> & _ & Ha2). rewrite Forall_forall in Ha2.
    apply bfs_reachable; [done| |done].
    intros y [Hy|Hy]%elem_of_app; [by apply Hq1|]. split.
    + apply rtc_once. eapply enqueued_dep_edge; eauto.
    + eauto using enqueued_key.
  - by apply bfs_reachable.
Qed.

Lemma enqueue_record_raises g v refs d : ∀ q,
  IDict d ∈ refs → ∃ e, enqueue E g v refs q = Raise e.
Proof.
  induction refs as [|r refs IH]; intros q Hd; [by apply elem_of_nil in Hd|].
  simpl. apply elem_of_cons in Hd as [<-|Hd]; [by eexists|].
  destruct (resolve_item E g r) as [[i|]|e]; [| |by eexists].
  - destruct (_ && _); by apply IH.
  - by apply IH.
Qed.

(** X5. A record among the entries the resolver reads is fatal: when
    the requires list of the entry node, or with the include-optional
    flag its optional list, holds a structured record, the resolver
    raises. *)
Theorem resolve_dependencies_record_raises g entry opt n d :
  nodes g !! entry = Some n → IDict d ∈ read_lists opt n →
  ∃ e, resolve_dependencies E g entry opt = Some (Raise e).
Proof.
  intros Hn Hd.
  destruct (resolve_dependencies_first g entry opt) as [fuel ->].
  rewrite (find_node_key _ _ _ _ Hn).
  destruct (enqueue E g _ (n_requires n) []) as [q1|e] eqn:H1; [|by eexists].
  apply elem_of_app in Hd as [Hd|Hd].
  { destruct (enqueue_record_raises g ({[entry]} ∪ ∅) _ d [] Hd) as [e He].
    congruence. }
  destruct opt; [|by apply elem_of_nil in Hd].
  destruct (enqueue_record_raises g ({[entry]} ∪ ∅) _ d q1 Hd) as [e ->].
  by eexists.
Qed.

Lemma resolve_node_id_safe g s :
  safe_ref s → ∃ o, resolve_node_id E g s = Ok o.
Proof.
  intros Hs. unfold resolve_node_id. case_bool_decide; [by eexists|].
  unfold expand_path.
  destruct (Str.startswith "~/" s) eqn:H1.
  { destruct (by_path_get _ _); by eexists. }
  destruct Hs as [Hs|Hs]; [|congruence]. rewrite Hs.
  destruct (negb _); destruct (by_path_get _ _); by eexists.
Qed.

Lemma enqueue_safe g v refs : ∀ q,
  Forall safe_item refs → ∃ q', enqueue E g v refs q = Ok q'.
Proof.
  induction refs as [|r refs IH]; intros q Hs; [by eexists|].
  apply Forall_cons in Hs as [Hr Hs]. simpl.
  destruct r as [s|]; [|done]. simpl in *.
  destruct (resolve_node_id_safe g s Hr) as [[i|] ->]; [|by apply IH].
  destruct (_ && _); by apply IH.
Qed.

Lemma bfs_safe g opt fuel :
  wf_index g →
  (∀ i n, nodes g !! i = Some n → Forall safe_item (read_lists opt n)) →
  ∀ q v res out,
    (∀ x, x ∈ q → is_Some (nodes g !! x) ∨ safe_ref x) →
    bfs E g opt fuel q v res = Some out → ∃ l, out = Ok l.
Proof.
  intros Hwf Hsafe.
  induction fuel as [|fuel IH]; intros q v res out Hq; [done|]. simpl.
  destruct q as [|x q]; [intros [= <-]; by eexists|].
  case_bool_decide; [apply IH; set_solver|].
  assert (Hf : ∃ o, find_node E g x = Ok o).
  { unfold find_node. destruct (nodes g !! x) eqn:Hx; [by eexists|].
    destruct (Hq x) as [[? ?]|Hs]; [set_solver|congruence|].
    destruct (resolve_node_id_safe g x Hs) as [[i|] ->]; [|by eexists].
    destruct (Str.is_empty i); [by eexists|].
    destruct (nodes g !! i); by eexists. }
  destruct Hf as [[[i n]|] Hf]; rewrite Hf; [|apply IH; set_solver].
  pose proof (Hsafe _ _ (find_node_lookup _ _ _ _ _ Hf)) as Hn.
  unfold read_lists in Hn. apply Forall_app in Hn as [Hreq Hopt].
  destruct (enqueue_safe g ({[x]} ∪ v) _ q Hreq) as [q1 H1]. rewrite H1.
  apply enqueue_app in H1 as (ids1 & -> & _ & Ha1). rewrite Forall_forall in Ha1.
  assert (Hq1 : ∀ y, y ∈ q ++ ids1 → is_Some (nodes g !! y) ∨ safe_ref y).
  { intros y [Hy|Hy]%elem_of_app; [set_solver|]. left. eauto using enqueued_key. }
  destruct opt; [|by apply IH].
  destruct (enqueue_safe g ({[x]} ∪ v) _ (q ++ ids1) Hopt) as [q2 H2]. rewrite H2.
  apply enqueue_app in H2 as (ids2 & -> & _ & Ha2). rewrite Forall_forall in Ha2.
  apply IH. intros y [Hy|Hy]%elem_of_app; [by apply Hq1|].
  left. eauto using enqueued_key.
Qed.

(** X6. When the resolver cannot raise: on a well-formed index whose
    nodes list only strings in the lists the resolver reads, none of
    them a [~user] reference, resolving a node id or any reference that
    is not of the [~user] form returns a list. *)
Theorem resolve_dependencies_no_raise g entry opt :
  wf_index g →
  (∀ i n, nodes g !! i = Some n → Forall safe_item (read_lists opt n)) →
  is_Some (nodes g !! entry) ∨ safe_ref entry →
  ∃ l, resolve_dependencies E g entry opt = Some (Ok l).
Proof.
  intros Hwf Hsafe He.
  destruct (resolve_dependencies_terminates E g entry opt) as [out Hout].
  rewrite Hout. apply (bfs_safe g opt _ Hwf Hsafe) in Hout as [l ->]; [by eexists|].
  by intros x ->%list_elem_of_singleton.
Qed.

End ResolverContents.

(** ** Reference resolver: errors and edge cases *)

Section ReferenceMore.

Variable E : env.

(** X7. On a well-formed index a resolved reference is the id of an
    indexed node, and resolving that id again returns it. *)
Theorem resolve_node_id_wf g ref i :
  wf_index g → resolve_node_id E g ref = Ok (Some i) →
  is_Some (nodes g !! i) ∧ resolve_node_id E g i = Ok (Some i).
Proof.
  intros Hwf Hr.
  assert (Hi : is_Some (nodes g !! i)).
  { apply resolve_node_id_universe in Hr as [Hi|Hi]; [|by apply Hwf].
    by apply elem_of_dom. }
  split; [done|]. by apply resolve_node_id_key.
Qed.

(** X8. The reference resolver raises exactly when [Path.expanduser]
    does: the reference is no node id, starts with [~] but not with
    [~/], and [Path.expanduser] raises for it; the exception is the one
    [Path.expanduser] raised, passed on unchanged.  The look-ups in the
    two tables and the search by suffix raise nothing. *)
Theorem resolve_node_id_raises g ref e :
  resolve_node_id E g ref = Raise e
  ↔ nodes g !! ref = None
    ∧ Str.startswith "~/" ref = false ∧ Str.startswith "~" ref = true
    ∧ expanduser E ref = Raise e.
Proof.
  unfold resolve_node_id, expand_path. split.
  - case_bool_decide as Hk; [done|].
    assert (nodes g !! ref = None).
    { destruct (nodes g !! ref) eqn:Hn; [|done]. exfalso. apply Hk. by eexists. }
    destruct (Str.startswith "~/" ref).
    { by destruct (by_path_get _ _). }
    destruct (Str.startswith "~" ref).
    + destruct (expanduser E ref); [by destruct (by_path_get _ _)|].
      by intros [= <-].
    + destruct (negb _); by destruct (by_path_get _ _).
  - intros (Hn & -> & -> & ->).
    rewrite bool_decide_eq_false_2; [done|]. rewrite Hn. by intros [? ?].
Qed.

Lemma drop_all s : Str.drop (String.length s) s = EmptyString.
Proof. induction s as [|c s IH]; [done|]. exact IH. Qed.

Lemma endswith_empty s : Str.endswith EmptyString s = true.
Proof. unfold Str.endswith. simpl. by rewrite Nat.sub_0_r, drop_all. Qed.

(** X9. The empty reference matches every path as a suffix: when it is
    no node id and its expansion is no indexed path, it resolves to the
    node of the first indexed path. *)
Theorem resolve_node_id_empty_ref g path i rest :
  nodes g !! EmptyString = None →
  by_path_get (path_join E (WORKSPACE E) EmptyString) (by_path g) = None →
  by_path g = (path, i) :: rest →
  resolve_node_id E g EmptyString = Ok (Some i).
Proof.
  intros Hn Hp Hb. unfold resolve_node_id.
  rewrite bool_decide_eq_false_2 by (rewrite Hn; by intros [? ?]).
  cbn [expand_path Str.startswith negb]. rewrite Hp, Hb. simpl.
  unfold suffix_match. by rewrite endswith_empty.
Qed.

End ReferenceMore.

(** ** Header parser: what the loop keeps *)

Section ParserMore.

Lemma lstrip_blank f c s :
  f c = true → Str.lstrip_by f (String c s) = Str.lstrip_by f s.
Proof. intros H. simpl. by rewrite H. Qed.

(** X10. The slice of the body does no harm to a body that starts with
    white space: behind a header block closed at the first closing
    marker, the stripped body is the stripped text that follows the
    marker. *)
Theorem parse_frontmatter_body_strip header rest :
  Str.find closing (header +:+ closing +:+ rest) = Some (String.length header) →
  starts_blank rest →
  Str.strip (parse_frontmatter (marker +:+ header +:+ closing +:+ rest)).2
  = Str.strip rest.
Proof.
  intros Hfind Hb. rewrite (parse_frontmatter_body header rest Hfind).
  destruct rest as [|c rest]; [done|]. simpl in Hb.
  unfold Str.strip, Str.strip_by. cbn [Str.drop]. by rewrite lstrip_blank.
Qed.

Lemma set_last_snoc key value l d :
  set_last key value (l ++ [IDict d]) = l ++ [IDict (dict_set key value d)].
Proof.
  induction l as [|it l IH]; [done|].
  cbn [app set_last]. rewrite IH.
  destruct it; destruct (l ++ [IDict d]) eqn:Hl; try done;
    by destruct l.
Qed.

Lemma read_out_update (fm : gmap string hvalue) lists lists' dicts dicts' k l new :
  fm !! k = Some (HVList l) →
  (∀ k' l', k' ≠ k → fm !! k' = Some (HVList l') →
     read_value lists' dicts' (HVList l') = read_value lists dicts (HVList l')) →
  read_value lists' dicts' (HVList l) = VList new →
  read_value lists' dicts' <$> fm
  = <[k := VList new]> (read_value lists dicts <$> fm).
Proof.
  intros Hk Hother Hnew. apply map_eq. intros k'. rewrite lookup_fmap.
  destruct (decide (k' = k)) as [->|Hne].
  - rewrite lookup_insert_eq, Hk. cbn [fmap option_fmap option_map].
    by rewrite Hnew.
  - rewrite lookup_insert_ne, lookup_fmap by done.
    destruct (fm !! k') as [[s|l']|] eqn:Hk'; [done| |done].
    cbn [fmap option_fmap option_map]. by rewrite (Hother k' l').
Qed.

(** Reading a list out of a store of records that has grown, or that
    has changed at an address the list does not refer to. *)
Lemma read_items_app dicts extra (items : list hitem) :
  (∀ i d, items !! i = Some (HRef d) → d < length dicts) →
  read_item (dicts ++ extra) <$> items = read_item dicts <$> items.
Proof.
  intros H. apply list_fmap_ext. intros i [s|d] Hi; [done|]. simpl.
  by rewrite lookup_app_l by eauto.
Qed.

Lemma read_items_alter f d dicts (items : list hitem) :
  (∀ i, items !! i ≠ Some (HRef d)) →
  read_item (alter f d dicts) <$> items = read_item dicts <$> items.
Proof.
  intros H. apply list_fmap_ext. intros i [s|d'] Hi; [done|]. simpl.
  rewrite list_lookup_alter_ne; [done|]. intros ->. by apply (H i).
Qed.

(** The references of the lists after an element is appended to the
    list at [l]. *)
Lemma ref_at_append lists l x a i d :
  ref_at (alter (λ items, items ++ [x]) l lists) a i d
  ↔ ref_at lists a i d
    ∨ (a = l ∧ x = HRef d ∧ ∃ items, lists !! l = Some items ∧ i = length items).
Proof.
  unfold ref_at. destruct (decide (a = l)) as [->|Hne].
  - rewrite list_lookup_alter_eq. split.
    + intros (items' & Hl & Hi). destruct (lists !! l) as [items|]; [|done].
      injection Hl as <-. apply lookup_snoc_Some in Hi as [[_ Hi]|[-> ->]].
      * left. by exists items.
      * right. split; [done|]. split; [done|]. by exists items.
    + intros [(items & Hl & Hi)|(_ & -> & items & Hl & ->)]; rewrite Hl.
      * exists (items ++ [x]). split; [done|]. by apply lookup_app_l_Some.
      * exists (items ++ [HRef d]). split; [done|].
        by rewrite list_lookup_middle.
  - rewrite list_lookup_alter_ne by done. split; [by left|].
    intros [?|(? & _)]; done.
Qed.

Lemma ref_at_lt lists l i d (items : list hitem) :
  lists !! l = Some items → ref_at lists l i d → i < length items.
Proof.
  intros Hl (items' & Hl' & Hi). assert (items' = items) as -> by congruence.
  by eapply lookup_lt_Some.
Qed.

Lemma append_str_ok st l s :
  h_ok st → h_current_list st = Some l →
  h_ok (HState (h_frontmatter st)
          (alter (λ items, items ++ [HStr s]) l (h_lists st)) (h_dicts st)
          (h_current_key st) (h_current_list st) None)
  ∧ ∃ k, h_current_key st = Some k
         ∧ read_out (HState (h_frontmatter st)
                       (alter (λ items, items ++ [HStr s]) l (h_lists st))
                       (h_dicts st) (h_current_key st) (h_current_list st) None)
           = list_append k (IStr s) (read_out st).
Proof.
  intros ((Hal & Had) & (W1 & W2 & W3 & W4) & Hkl) Hl.
  destruct (Hal l Hl) as (k & Hk & Hfm).
  destruct (lookup_lt_is_Some_2 _ _ (W1 k l Hfm)) as [items Hitems].
  split.
  - split; [|split].
    + split; [exact Hal|]. by intros d.
    + split; [|split; [|split]]; simpl.
      * intros k' l' ?. rewrite length_alter. eauto.
      * exact W2.
      * intros a i d [Hr|(_ & ? & _)]%ref_at_append; [eauto|done].
      * intros a1 a2 i j d [H1|(_ & ? & _)]%ref_at_append
          [H2|(_ & ? & _)]%ref_at_append; [eauto|done..].
    + exact Hkl.
  - exists k. split; [done|]. unfold read_out, list_append. simpl.
    rewrite lookup_fmap, Hfm. simpl. rewrite Hitems. simpl.
    apply read_out_update with (l := l); [done| |].
    + intros k' l' Hne Hk'. simpl. rewrite list_lookup_alter_ne; [done|].
      intros ->. apply Hne. by eapply W2.
    + simpl. rewrite list_lookup_alter_eq, Hitems. simpl. by rewrite fmap_app.
Qed.

Lemma append_dict_ok st l key value :
  h_ok st → h_current_list st = Some l →
  h_ok (HState (h_frontmatter st)
          (alter (λ items, items ++ [HRef (length (h_dicts st))]) l (h_lists st))
          (h_dicts st ++ [[(key, value)]])
          (h_current_key st) (h_current_list st) (Some (length (h_dicts st))))
  ∧ ∃ k, h_current_key st = Some k
         ∧ read_out (HState (h_frontmatter st)
                       (alter (λ items, items ++ [HRef (length (h_dicts st))])
                              l (h_lists st))
                       (h_dicts st ++ [[(key, value)]])
                       (h_current_key st) (h_current_list st)
                       (Some (length (h_dicts st))))
           = list_append k (IDict [(key, value)]) (read_out st).
Proof.
  intros ((Hal & Had) & (W1 & W2 & W3 & W4) & Hkl) Hl.
  destruct (Hal l Hl) as (k & Hk & Hfm).
  destruct (lookup_lt_is_Some_2 _ _ (W1 k l Hfm)) as [items Hitems].
  split.
  - split; [|split].
    + split; [exact Hal|]. simpl. intros d [= <-]. exists l, items.
      split; [done|]. by rewrite list_lookup_alter_eq, Hitems.
    + split; [|split; [|split]]; simpl.
      * intros k' l' ?. rewrite length_alter. eauto.
      * exact W2.
      * intros a i d. rewrite length_app. simpl.
        intros [Hr|(_ & [= <-] & _)]%ref_at_append; [|lia].
        specialize (W3 _ _ _ Hr). lia.
      * intros a1 a2 i j d
          [H1|(-> & [= <-] & it1 & Hi1 & ->)]%ref_at_append
          [H2|(-> & Hd & it2 & Hi2 & ->)]%ref_at_append.
        -- eauto.
        -- injection Hd as <-. specialize (W3 _ _ _ H1). lia.
        -- specialize (W3 _ _ _ H2). lia.
        -- split; [done|]. congruence.
    + exact Hkl.
  - exists k. split; [done|]. unfold read_out, list_append. simpl.
    rewrite lookup_fmap, Hfm. simpl. rewrite Hitems. simpl.
    assert (Hrefs : ∀ a its, h_lists st !! a = Some its →
              ∀ i d, its !! i = Some (HRef d) → d < length (h_dicts st)).
    { intros a its Ha i d Hi. apply (W3 a i d). by exists its. }
    apply read_out_update with (l := l); [done| |].
    + intros k' l' Hne Hk'. simpl. rewrite list_lookup_alter_ne.
      * destruct (h_lists st !! l') as [its|] eqn:Hl'; [|done]. simpl.
        f_equal. apply read_items_app. by eapply Hrefs.
      * intros ->. apply Hne. by eapply W2.
    + simpl. rewrite list_lookup_alter_eq, Hitems. simpl.
      rewrite fmap_app. simpl. rewrite list_lookup_middle by done. simpl.
      f_equal. f_equal. apply read_items_app. by eapply Hrefs.
Qed.

Lemma update_dict_ok st d key value :
  h_ok st → h_current_dict st = Some d →
  h_ok (HState (h_frontmatter st) (h_lists st)
          (alter (dict_set key value) d (h_dicts st))
          (h_current_key st) (h_current_list st) (h_current_dict st))
  ∧ ∃ k, h_current_key st = Some k
         ∧ read_out (HState (h_frontmatter st) (h_lists st)
                       (alter (dict_set key value) d (h_dicts st))
                       (h_current_key st) (h_current_list st)
                       (h_current_dict st))
           = dict_update k key value (read_out st).
Proof.
  intros ((Hal & Had) & (W1 & W2 & W3 & W4) & Hkl) Hd.
  destruct (Had d Hd) as (l & items & Hl & Hitems).
  destruct (Hal l Hl) as (k & Hk & Hfm).
  assert (Hat : ref_at (h_lists st) l (length items) d).
  { exists (items ++ [HRef d]). split; [done|]. by rewrite list_lookup_middle. }
  destruct (lookup_lt_is_Some_2 _ _ (W3 _ _ _ Hat)) as [dd Hdd].
  split.
  - split; [|split].
    + by split.
    + split; [|split; [|split]]; simpl; [exact W1|exact W2| |exact W4].
      intros a i d' ?. rewrite length_alter. eauto.
    + exact Hkl.
  - exists k. split; [done|]. unfold read_out, dict_update. simpl.
    rewrite lookup_fmap, Hfm. simpl. rewrite Hitems. simpl.
    rewrite fmap_app. simpl. rewrite Hdd. simpl. rewrite set_last_snoc.
    apply read_out_update with (l := l); [done| |].
    + intros k' l' Hne Hk'. simpl.
      destruct (h_lists st !! l') as [its|] eqn:Hl'; [|done]. simpl.
      f_equal. apply read_items_alter. intros i Hi.
      assert (Hat' : ref_at (h_lists st) l' i d) by (by exists its).
      destruct (W4 _ _ _ _ _ Hat Hat') as [<- _]. apply Hne. by eapply W2.
    + simpl. rewrite Hitems. simpl. rewrite fmap_app. simpl.
      rewrite list_lookup_alter_eq, Hdd. simpl. f_equal. f_equal.
      apply read_items_alter. intros i Hi.
      assert (Hat' : ref_at (h_lists st) l i d).
      { exists (items ++ [HRef d]). split; [done|]. by apply lookup_app_l_Some. }
      destruct (W4 _ _ _ _ _ Hat Hat') as [_ Hlen].
      apply lookup_lt_Some in Hi. lia.
Qed.

Lemma start_list_ok st key :
  h_ok st →
  h_ok (HState (<[key := HVList (length (h_lists st))]> (h_frontmatter st))
          (h_lists st ++ [[]]) (h_dicts st)
          (Some key) (Some (length (h_lists st))) None)
  ∧ read_out (HState (<[key := HVList (length (h_lists st))]> (h_frontmatter st))
                (h_lists st ++ [[]]) (h_dicts st)
                (Some key) (Some (length (h_lists st))) None)
    = <[key := VList []]> (read_out st).
Proof.
  intros ((Hal & Had) & (W1 & W2 & W3 & W4) & Hkl).
  assert (Href : ∀ a i d, ref_at (h_lists st ++ [[]]) a i d →
                          ref_at (h_lists st) a i d).
  { intros a i d (its & Ha & Hi). exists its. split; [|done].
    apply lookup_snoc_Some in Ha as [[_ Ha]|[_ <-]]; [done|].
    by rewrite lookup_nil in Hi. }
  split.
  - split; [|split].
    + split; simpl; [|done]. intros l [= <-]. exists key.
      split; [done|]. by rewrite lookup_insert_eq.
    + split; [|split; [|split]]; simpl.
      * intros k' l'. rewrite length_app. simpl.
        intros [[_ [= <-]]|[_ Hk']]%lookup_insert_Some; [lia|].
        specialize (W1 _ _ Hk'). lia.
      * intros k1 k2 l'
          [[<- [= <-]]|[? Hk1]]%lookup_insert_Some
          [[<- Hl']|[? Hk2]]%lookup_insert_Some; [done| | |by eapply W2].
        -- specialize (W1 _ _ Hk2). lia.
        -- injection Hl' as <-. specialize (W1 _ _ Hk1). lia.
      * intros a i d ?%Href. eauto.
      * intros a1 a2 i j d ?%Href ?%Href. eauto.
    + simpl. intros k _. by eexists.
  - unfold read_out. simpl. rewrite fmap_insert. simpl.
    rewrite list_lookup_middle by done. simpl. f_equal.
    apply map_fmap_ext. intros k' [s|l'] Hk'; [done|]. simpl.
    by rewrite lookup_app_l by eauto.
Qed.

Lemma scalar_ok st key value :
  h_ok st →
  h_ok (HState (<[key := HVStr value]> (h_frontmatter st))
          (h_lists st) (h_dicts st) None None None)
  ∧ read_out (HState (<[key := HVStr value]> (h_frontmatter st))
                (h_lists st) (h_dicts st) None None None)
    = <[key := VStr value]> (read_out st).
Proof.
  intros ((Hal & Had) & (W1 & W2 & W3 & W4) & Hkl). split.
  - split; [|split].
    + by split.
    + split; [|split; [|split]]; simpl; [| |exact W3|exact W4].
      * intros k' l' [[_ ?]|[_ Hk']]%lookup_insert_Some; [done|]. eauto.
      * intros k1 k2 l' [[_ ?]|[_ Hk1]]%lookup_insert_Some
          [[_ ?]|[_ Hk2]]%lookup_insert_Some; [done..|]. by eapply W2.
    + done.
  - unfold read_out. simpl. by rewrite fmap_insert.
Qed.

(** One line: the loop on the stores keeps its invariant, and does to
    the dict read out what [parse_line] does. *)
Lemma parse_line_h_step st line :
  h_ok st →
  h_ok (parse_line_h st line)
  ∧ abstract (parse_line_h st line) = parse_line (abstract st) line.
Proof.
  intros Hok. pose proof Hok as ((Hal & Had) & _ & Hkl).
  assert (Hnone : h_current_list st = None → h_current_key st = None).
  { intros Hl. destruct (h_current_key st) as [k|]; [|done].
    destruct (Hkl k eq_refl) as [l ?]. congruence. }
  unfold parse_line_h, parse_line.
  cbn [abstract current_key current_dict frontmatter].
  destruct (Str.is_empty (Str.rstrip line)); [done|].
  destruct (Str.startswith "- " _ && Str.contains ":" _).
  { destruct (h_current_list st) as [l|] eqn:Hl.
    - destruct (key_value _) as [key value].
      destruct (append_dict_ok st l key value Hok Hl) as [Hok' (k & Hk & Hr)].
      rewrite Hl in Hok', Hr. split; [exact Hok'|].
      unfold abstract. rewrite Hr, Hk. done.
    - rewrite (Hnone eq_refl). done. }
  destruct ((4 <=? _) && bool_decide (is_Some (h_current_dict st)) && _) eqn:Hc.
  { apply andb_prop in Hc as [[_ Hd%bool_decide_eq_true]%andb_prop _].
    destruct Hd as [d Hd]. rewrite Hd.
    destruct (key_value _) as [key value].
    destruct (update_dict_ok st d key value Hok Hd) as [Hok' (k & Hk & Hr)].
    rewrite Hd in Hok', Hr. split; [exact Hok'|].
    unfold abstract. rewrite Hr, Hk. done. }
  destruct (Str.startswith "- " _).
  { destruct (h_current_list st) as [l|] eqn:Hl.
    - destruct (append_str_ok st l (Str.strip (Str.drop 2 (Str.strip (Str.rstrip line))))
                  Hok Hl) as [Hok' (k & Hk & Hr)].
      rewrite Hl in Hok', Hr. split; [exact Hok'|].
      unfold abstract. rewrite Hr, Hk. done.
    - rewrite (Hnone eq_refl). done. }
  destruct (Str.contains ":" _ && _); [|done].
  destruct (key_value _) as [key value].
  destruct (Str.is_empty value).
  - destruct (start_list_ok st key Hok) as [Hok' Hr]. split; [exact Hok'|].
    unfold abstract. by rewrite Hr.
  - destruct (scalar_ok st key value Hok) as [Hok' Hr]. split; [exact Hok'|].
    unfold abstract. by rewrite Hr.
Qed.

Lemma parse_lines_h_steps lines : ∀ st,
  h_ok st →
  h_ok (fold_left parse_line_h lines st)
  ∧ abstract (fold_left parse_line_h lines st)
    = fold_left parse_line lines (abstract st).
Proof.
  induction lines as [|line lines IH]; intros st Hok; [done|]. simpl.
  destruct (parse_line_h_step st line Hok) as [Hok' <-]. by apply IH.
Qed.

Lemma h_init_ok : h_ok h_init.
Proof.
  split; [|split].
  - by split.
  - split; [|split; [|split]]; simpl.
    + intros k l. by rewrite lookup_empty.
    + intros k1 k2 l. by rewrite lookup_empty.
    + by intros l i d (? & ? & _).
    + by intros l1 l2 i j d (? & ? & _).
  - done.
Qed.

(** X11. The aliases of the parser loop stay in step, and no object is
    shared: with the lists and records of the loop as objects in a
    store, after any lines [current_list] is the list stored under
    [current_key], [current_dict] is the last element of that list, and
    the dict a caller reads is the one [parse_lines] computes. *)
Theorem parse_lines_aliases lines :
  aliases_ok (fold_left parse_line_h lines h_init)
  ∧ unshared (fold_left parse_line_h lines h_init)
  ∧ read_out (fold_left parse_line_h lines h_init) = parse_lines lines.
Proof.
  destruct (parse_lines_h_steps lines h_init h_init_ok) as [(Hal & Hun & _) Habs].
  split; [exact Hal|]. split; [exact Hun|].
  unfold parse_lines. change (PState ∅ None false) with (abstract h_init).
  by rewrite <- Habs.
Qed.

(** A record in a list, extended by the line behind it. *)
Lemma parse_lines_h_record :
  read_out (fold_left parse_line_h
              ["optional:"; "  - path: p.md"; "    when: deploy"; "  - q.md"]
              h_init)
  !! "optional"
  = Some (VList [IDict [("path", "p.md"); ("when", "deploy")]; IStr "q.md"]).
Proof. vm_compute. reflexivity. Qed.

Lemma parse_line_scalars st line :
  scalars_nonempty (frontmatter st) →
  scalars_nonempty (frontmatter (parse_line st line)).
Proof.
  intros Hs.
  assert (Hins : ∀ k l, scalars_nonempty (<[k := VList l]> (frontmatter st))).
  { intros k l k' v. destruct (decide (k = k')) as [->|].
    - by rewrite lookup_insert_eq.
    - rewrite lookup_insert_ne by done. apply Hs. }
  unfold parse_line. destruct (Str.is_empty _); [done|].
  destruct (Str.startswith "- " _ && Str.contains ":" _).
  { destruct (current_key st) as [k|]; [|done].
    destruct (key_value _) as [key value]. simpl. unfold list_append.
    by destruct (frontmatter st !! k) as [[?|?]|]. }
  destruct ((4 <=? _) && current_dict st && Str.contains ":" _).
  { destruct (current_key st) as [k|]; [|done].
    destruct (key_value _) as [key value]. simpl. unfold dict_update.
    by destruct (frontmatter st !! k) as [[?|?]|]. }
  destruct (Str.startswith "- " _).
  { destruct (current_key st) as [k|]; [|done]. simpl. unfold list_append.
    by destruct (frontmatter st !! k) as [[?|?]|]. }
  destruct (Str.contains ":" _ && _); [|done].
  destruct (key_value _) as [key value].
  destruct (Str.is_empty value) eqn:Hv; simpl; [done|].
  intros k' v. destruct (decide (key = k')) as [->|].
  - rewrite lookup_insert_eq. by intros [= <-].
  - rewrite lookup_insert_ne by done. apply Hs.
Qed.

(** X12. No scalar of the metadata map is empty: a key written without
    a value opens a list instead. *)
Theorem parse_frontmatter_scalar_nonempty content k v :
  (parse_frontmatter content).1 !! k = Some (VStr v) →
  Str.is_empty v = false.
Proof.
  assert (Hgen : ∀ ls st, scalars_nonempty (frontmatter st) →
            scalars_nonempty (frontmatter (fold_left parse_line ls st))).
  { induction ls as [|line ls IH]; intros st Hst; [done|].
    simpl. by apply IH, parse_line_scalars. }
  unfold parse_frontmatter. destruct (negb _); [simpl; by rewrite lookup_empty|].
  destruct (Str.find _ _); [|simpl; by rewrite lookup_empty].
  apply Hgen. intros k' v'. simpl. by rewrite lookup_empty.
Qed.

Lemma parse_line_ignorable st line :
  ignorable line = true → parse_line st line = st.
Proof.
  unfold ignorable, parse_line.
  destruct (Str.is_empty _); [done|]. cbn [orb]. intros H.
  apply andb_true_iff in H as [[H1 H3]%andb_true_iff Hn].
  apply negb_true_iff in Hn. rewrite Hn. cbn [andb].
  apply Nat.leb_le in H1, H3.
  rewrite (proj2 (Nat.leb_gt 4 _)) by lia.
  rewrite (proj2 (Nat.eqb_neq _ 0)) by lia.
  by rewrite andb_false_r.
Qed.

(** X13. Blank lines, and lines indented by one to three characters
    that are no list items, change nothing wherever they stand in a
    header. *)
Theorem parse_lines_ignorable before line after :
  ignorable line = true →
  parse_lines (before ++ line :: after) = parse_lines (before ++ after).
Proof.
  intros H. unfold parse_lines. rewrite !fold_left_app. simpl.
  by rewrite parse_line_ignorable.
Qed.

End ParserMore.

(** ** Context assembler: lists, files and externals *)

Section AssemblerMore.

Variable E : env.

Lemma append_new_elem wf_deps : ∀ deps x,
  x ∈ append_new deps wf_deps ↔ x ∈ deps ∨ x ∈ wf_deps.
Proof.
  induction wf_deps as [|d rest IH]; intros deps x; simpl.
  - split; [by left|]. intros [?|Hx]; [done|by apply elem_of_nil in Hx].
  - case_bool_decide as Hd.
    + rewrite IH, elem_of_cons. split.
      * intros [?|?]; auto.
      * intros [?|[ ->|?]]; auto.
    + rewrite IH, elem_of_app, list_elem_of_singleton, elem_of_cons. split.
      * intros [[?| ->]|?]; auto.
      * intros [?|[ ->|?]]; auto.
Qed.

Lemma append_new_NoDup wf_deps : ∀ deps,
  NoDup deps → NoDup (append_new deps wf_deps).
Proof.
  induction wf_deps as [|d rest IH]; intros deps Hnd; simpl; [done|].
  case_bool_decide as Hd; [by apply IH|]. apply IH.
  apply NoDup_app. split; [done|]. split; [|apply NoDup_singleton].
  by intros x Hx ->%list_elem_of_singleton.
Qed.

(** X14. Appending the workflow's dependencies keeps the entry's list
    as a prefix, adds exactly the ids that are new, and adds none
    twice: the combined list has the ids of both lists, and no
    duplicate unless the entry's list has one. *)
Theorem append_new_spec deps wf_deps :
  deps `prefix_of` append_new deps wf_deps
  ∧ (∀ x, x ∈ append_new deps wf_deps ↔ x ∈ deps ∨ x ∈ wf_deps)
  ∧ (NoDup deps → NoDup (append_new deps wf_deps)).
Proof.
  split; [apply append_new_prefix|].
  split; [apply append_new_elem|apply append_new_NoDup].
Qed.

Lemma select_pills_files pills optional : ∀ c,
  c_files (select_pills E pills optional c) = c_files c.
Proof.
  induction optional as [|opt rest IH]; intros c; [done|]. simpl.
  destruct (opt_path opt); [|done].
  destruct (pill_match E pills a); by rewrite IH.
Qed.

Lemma collect_node_files g task pills c i :
  c_files (collect_node E g task pills c i)
  = match loaded_node E g i ≫= (λ n, fs_read E (n_path n)) with
    | Some text => <[i := text]> (c_files c)
    | None => c_files c
    end.
Proof.
  unfold loaded_node, collect_node. destruct (nodes g !! i) as [n|]; [|done].
  destruct (Str.is_empty (n_path n)); [done|].
  destruct (fs_exists E (n_path n)); [|done].
  destruct (fs_read E (n_path n)) as [text|] eqn:Hr; [|done].
  cbn [negb andb]. rewrite bool_decide_eq_true_2 by eauto.
  cbn -[select_pills parse_optional_deps]. rewrite Hr.
  destruct (n_optional n) as [|o os]; [done|].
  destruct pills; [|by rewrite select_pills_files].
  by destruct (parse_optional_deps E (o :: os) task) as [[? ?]|].
Qed.

(** X15. The files of a bundle are the texts of the loaded nodes, and
    nothing else: an id has a text iff it is in the resolved list, is
    the id of an indexed node with a backing path whose file exists and
    can be read; the text is what reading that file returns. *)
Theorem collect_files g deps task pills i :
  c_files (collect E g deps task pills) !! i
  = if bool_decide (i ∈ deps)
    then loaded_node E g i ≫= (λ n, fs_read E (n_path n))
    else None.
Proof.
  unfold collect.
  assert (Hgen : ∀ c,
    c_files (fold_left (collect_node E g task pills) deps c) !! i
    = if bool_decide (i ∈ deps)
      then match loaded_node E g i ≫= (λ n, fs_read E (n_path n)) with
           | Some text => Some text
           | None => c_files c !! i
           end
      else c_files c !! i).
  { induction deps as [|d deps IH]; intros c; simpl; [done|].
    rewrite IH, collect_node_files.
    destruct (decide (i = d)) as [->|Hne].
    - rewrite (bool_decide_eq_true_2 (d ∈ d :: deps)) by set_solver.
      destruct (loaded_node E g d ≫= _) as [text|] eqn:Hl.
      + rewrite lookup_insert_eq. by destruct (bool_decide (d ∈ deps)).
      + by destruct (bool_decide (d ∈ deps)).
    - assert (Hd : bool_decide (i ∈ d :: deps) = bool_decide (i ∈ deps)).
      { apply bool_decide_ext. set_solver. }
      rewrite Hd.
      destruct (loaded_node E g d ≫= _); [by rewrite lookup_insert_ne|done]. }
  rewrite Hgen. simpl. rewrite lookup_empty.
  case_bool_decide; [|done]. by destruct (loaded_node E g i ≫= _).
Qed.

Lemma parse_optional_deps_no_task optional :
  parse_optional_deps E optional EmptyString
  = Ok ([], entry_path <$> optional).
Proof.
  induction optional as [|opt rest IH]; [done|].
  destruct opt as [s|d]; cbn [parse_optional_deps]; by rewrite IH.
Qed.

(** X16. Without pills and without a task nothing optional is
    scheduled: every optional entry of every loaded node is skipped, in
    order. *)
Theorem collect_no_task g deps :
  external_refs_optional (collect E g deps EmptyString []) = []
  ∧ skipped_optional (collect E g deps EmptyString [])
    = flat_map (λ n, entry_path <$> n_optional n) (loaded E g deps).
Proof.
  unfold collect.
  assert (Hgen : ∀ c,
    external_refs_optional (fold_left (collect_node E g EmptyString []) deps c)
    = external_refs_optional c
    ∧ skipped_optional (fold_left (collect_node E g EmptyString []) deps c)
      = skipped_optional c
        ++ flat_map (λ n, entry_path <$> n_optional n) (loaded E g deps)).
  { unfold loaded. induction deps as [|i deps IH]; intros c; simpl.
    - by rewrite app_nil_r.
    - destruct (loaded_node E g i) as [n|] eqn:Hl.
      + destruct (collect_node_loaded E g EmptyString [] c i n Hl) as [text ->].
        cbv zeta.
        destruct (n_optional n) as [|o os] eqn:Ho.
        * destruct (IH (Collected (<[i := text]> (c_files c))
            (external_refs_required c ∪ required_externals (n_requires n))
            (external_refs_optional c) (skipped_optional c))) as [-> ->].
          simpl. by rewrite Ho.
        * rewrite parse_optional_deps_no_task.
          match goal with
          | |- context [fold_left _ deps ?c'] => destruct (IH c') as [-> ->]
          end.
          simpl. by rewrite Ho, app_nil_r, <- app_assoc.
      + rewrite collect_node_unloaded by done. apply IH. }
  destruct (Hgen (Collected ∅ ∅ [] [])) as [-> ->]. done.
Qed.

(** X17. A record without a path ends the selection by pills for its
    node: the entries before it are classified, the record and the
    entries after it are neither scheduled nor skipped. *)
Theorem select_pills_pathless pills before d after c :
  dict_get "path" d = None →
  select_pills E pills (before ++ IDict d :: after) c
  = select_pills E pills before c.
Proof.
  intros Hd. revert c. induction before as [|opt rest IH]; intros c; simpl.
  - by rewrite Hd.
  - destruct (opt_path opt); [|done].
    destruct (pill_match E pills a); by rewrite IH.
Qed.

Lemma contains_empty s : Str.contains EmptyString s = true.
Proof. by destruct s. Qed.

Lemma filter_all {A} (f : A → bool) (l : list A) :
  (∀ x, f x = true) → List.filter f l = l.
Proof.
  intros Hf. induction l as [|x l IH]; [done|]. simpl. by rewrite Hf, IH.
Qed.

Lemma filter_none {A} (f : A → bool) (l : list A) :
  (∀ x, f x = false) → List.filter f l = [].
Proof.
  intros Hf. induction l as [|x l IH]; [done|]. simpl. by rewrite Hf, IH.
Qed.

(** X18. An empty pill selects everything: when the pill list holds
    the empty string, every optional entry with a path is scheduled and
    none is skipped. *)
Theorem select_pills_empty_pill pills optional c :
  EmptyString ∈ pills → Forall has_path optional →
  select_pills E pills optional c
  = Collected (c_files c) (external_refs_required c)
      (external_refs_optional c ++ (entry_path <$> optional))
      (skipped_optional c).
Proof.
  intros Hp Hpaths. rewrite (select_pills_spec E pills optional c Hpaths).
  assert (Hall : ∀ path, pill_match E pills path = true).
  { intros path. unfold pill_match. apply existsb_exists.
    exists EmptyString. split; [by apply list_elem_of_In|apply contains_empty]. }
  rewrite (filter_all _ _ Hall), filter_none, app_nil_r; [done|].
  intros path. unfold compose. by rewrite Hall.
Qed.

Lemma fold_load_into refs : ∀ m k v,
  fold_left (load_into E) refs m !! k = Some v →
  m !! k = Some v
  ∨ ∃ ref, ref ∈ refs ∧ path_name E ref = k
           ∧ load_external_file E ref = Some v ∧ Str.is_empty v = false.
Proof.
  induction refs as [|r refs IH]; intros m k v H; [by left|]. simpl in H.
  apply IH in H as [H|(ref & ? & ? & ? & ?)].
  - unfold load_into in H.
    destruct (load_external_file E r) as [content|] eqn:Hl; [|by left].
    destruct (Str.is_empty content) eqn:He; [by left|].
    destruct (decide (path_name E r = k)) as [<-|Hne].
    + rewrite lookup_insert_eq in H. simplify_eq. right. exists r.
      split; [set_solver|done].
    + rewrite lookup_insert_ne in H by done. by left.
  - right. exists ref. split; [set_solver|done].
Qed.

(** X19. Every external file of a bundle is the non-empty text of a
    scheduled reference, stored under the final component of that
    reference: a reference that cannot be expanded, does not exist,
    cannot be read or is empty leaves no entry. *)
Theorem build_context_external_files g entry workflow task pills b k v :
  build_context E g entry workflow task pills = Some (Ok b) →
  b_external_files b !! k = Some v →
  Str.is_empty v = false
  ∧ ∃ ref, (ref ∈ external_refs_required (collect E g (b_nodes b) task pills)
            ∨ ref ∈ external_refs_optional (collect E g (b_nodes b) task pills))
           ∧ path_name E ref = k ∧ load_external_file E ref = Some v.
Proof.
  unfold build_context.
  destruct (resolve_dependencies E g entry false) as [[deps|]|]; [|done..].
  destruct (workflow_deps E g workflow) as [[wf_deps|]|]; [|done..].
  intros [= <-]. simpl. intros H.
  apply fold_load_into in H as [H|(ref & ? & ? & ? & ?)].
  - apply fold_load_into in H as [H|(ref & Hr & ? & ? & ?)].
    + by rewrite lookup_empty in H.
    + split; [done|]. exists ref. split; [left; by apply elem_of_elements|done].
  - split; [done|]. exists ref. split; [by right|done].
Qed.

End AssemblerMore.

(** ** Formatter *)

Section FormatterFacts.

Lemma join_snoc sep l t :
  l ≠ [] → join sep (l ++ [t]) = join sep l +:+ sep +:+ t.
Proof.
  induction l as [|p l IH]; [done|]. intros _.
  destruct l as [|q l]; [done|].
  change (join sep ((p :: q :: l) ++ [t]))
    with (p +:+ sep +:+ join sep ((q :: l) ++ [t])).
  rewrite IH by done.
  change (join sep (p :: q :: l)) with (p +:+ sep +:+ join sep (q :: l)).
  by rewrite !append_assoc.
Qed.

(** X20. The task cannot reach into the rendered context: the output is
    a text that does not depend on the task, closed by the rule line and
    the task heading, followed by the task as it was given. *)
Theorem format_context_task_last ctx :
  ∃ before, ∀ task,
    format_context_for_spawn ctx task
    = before +:+ nl +:+ "---" +:+ nl +:+ "## YOUR TASK" +:+ nl +:+ task.
Proof.
  set (head := ["# Context: " +:+ ctx_entry ctx]
     ++ match ctx_workflow ctx with
        | Some w => if Str.is_empty w then [] else ["**Workflow**: " +:+ w]
        | None => []
        end
     ++ [EmptyString]
     ++ flat_map (node_section (ctx_files ctx)) (ctx_nodes ctx)
     ++ external_section (ctx_external_files ctx)).
  exists (join nl head). intros task.
  assert (Hne : ∀ l : list string, head ++ l ≠ []) by done.
  unfold format_context_for_spawn.
  replace (format_parts ctx task)
    with (((head ++ ["---"]) ++ ["## YOUR TASK"]) ++ [task]).
  - rewrite join_snoc by (rewrite <- app_assoc; apply Hne).
    rewrite join_snoc by apply Hne.
    rewrite join_snoc by (specialize (Hne []); by rewrite app_nil_r in Hne).
    by rewrite !append_assoc.
  - unfold format_parts, head. by rewrite <- !app_assoc.
Qed.

Lemma flat_map_node_section files l :
  flat_map (node_section files) (List.filter (has_content files) l)
  = flat_map (node_section files) l.
Proof.
  induction l as [|i l IH]; [done|].
  cbn [flat_map List.filter].
  destruct (has_content files i) eqn:Hi; cbn [flat_map]; rewrite IH; [done|].
  assert (node_section files i = []) as ->; [|done].
  unfold has_content in Hi. unfold node_section.
  destruct (files !! i) as [c|]; [|done].
  by destruct (Str.is_empty c).
Qed.

(** X21. A node of the list whose content was not loaded, or is empty,
    leaves no trace in the output: the output is that of the context
    whose node list holds only the nodes with content. *)
Theorem format_context_skips_unloaded ctx task :
  format_context_for_spawn ctx task
  = format_context_for_spawn (with_content ctx) task.
Proof.
  unfold format_context_for_spawn, format_parts, with_content.
  cbn [ctx_entry ctx_workflow ctx_nodes ctx_files ctx_external_files].
  by rewrite flat_map_node_section.
Qed.

End FormatterFacts.

(** ** Graph builder *)

Section ScanFacts.

Variable E : env.
Variable path_suffix : string → string.
Variable read_text : string → option string.


Lemma dict_get_set p q v d :
  dict_get p (dict_set q v d) = if String.eqb q p then Some v else dict_get p d.
Proof.
  induction d as [|[k' v'] d IH]; [done|]. simpl.
  destruct (String.eqb_spec k' q) as [->|Hk]; simpl.
  - by destruct (String.eqb q p).
  - rewrite IH. destruct (String.eqb_spec k' p) as [->|]; [|done].
    by destruct (String.eqb_spec q p) as [->|].
Qed.

Lemma elem_of_dict_set p i q v d :
  (p, i) ∈ dict_set q v d → (p, i) = (q, v) ∨ (p, i) ∈ d.
Proof.
  induction d as [|[k' v'] d IH]; simpl.
  - intros ->%list_elem_of_singleton. by left.
  - destruct (String.eqb_spec k' q) as [->|Hk].
    + intros [->|H]%elem_of_cons; [by left|]. right. by right.
    + intros [->|H]%elem_of_cons; [right; by left|].
      destruct (IH H) as [?|?]; [by left|]. right. by right.
Qed.

Lemma elem_of_by_type_add t ids i t0 i0 bt :
  (t, ids) ∈ by_type_add t0 i0 bt → i ∈ ids →
  i = i0 ∨ ∃ ids', (t, ids') ∈ bt ∧ i ∈ ids'.
Proof.
  induction bt as [|[t' ids'] bt IH]; simpl.
  - intros [= -> ->]%list_elem_of_singleton ->%list_elem_of_singleton. by left.
  - destruct (String.eqb_spec t' t0) as [->|Ht].
    + intros [[= -> ->]|H]%elem_of_cons Hi.
      * apply elem_of_app in Hi as [Hi| ->%list_elem_of_singleton]; [|by left].
        right. exists ids'. split; [by left|done].
      * right. exists ids. split; [by right|done].
    + intros [[= -> ->]|H]%elem_of_cons Hi.
      * right. exists ids'. split; [by left|done].
      * destruct (IH H Hi) as [?|(ids2 & ? & ?)]; [by left|].
        right. exists ids2. split; [by right|done].
Qed.

Lemma node_id_of_raise fm path e :
  node_id_of E fm path = Raise e
  ↔ e = TypeError ∧ ∃ x l, fm !! "id" = Some (VList (x :: l)).
Proof.
  unfold node_id_of. destruct (fm !! "id") as [[s|[|x l]]|].
  - destruct (Str.is_empty s); (split; [done|]); by intros [_ (? & ? & ?)].
  - split; [done|]. by intros [_ (? & ? & ?)].
  - split; [intros [= <-]; split; [done|]; by exists x, l|by intros [-> _]].
  - split; [done|]. by intros [_ (? & ? & ?)].
Qed.

Lemma node_type_of_raise fm e :
  node_type_of fm = Raise e ↔ e = TypeError ∧ ∃ l, fm !! "type" = Some (VList l).
Proof.
  unfold node_type_of. destruct (fm !! "type") as [[s|l]|].
  - split; [done|]. by intros [_ (? & ?)].
  - split; [intros [= <-]; split; [done|]; by exists l|by intros [-> _]].
  - split; [done|]. by intros [_ (? & ?)].
Qed.

Lemma register_raise G path content e :
  register E G path content = Raise e ↔ e = TypeError ∧ bad_header content.
Proof.
  unfold register, bad_header.
  destruct (node_id_of E _ path) as [i|e1] eqn:Hi.
  - destruct (node_type_of _) as [t|e2] eqn:Ht.
    + split; [done|]. intros [_ [H|H]].
      * assert (node_id_of E (parse_frontmatter content).1 path = Raise TypeError)
          as Hr by (by apply node_id_of_raise). congruence.
      * assert (node_type_of (parse_frontmatter content).1 = Raise TypeError)
          as Hr by (by apply node_type_of_raise). congruence.
    + apply node_type_of_raise in Ht as [-> Ht].
      split; [intros [= <-]; split; [done|by right]|by intros [-> _]].
  - apply node_id_of_raise in Hi as [-> Hi].
    split; [intros [= <-]; split; [done|by left]|by intros [-> _]].
Qed.

Lemma scan_loop_raise listing G e :
  scan_loop E path_suffix read_text listing G = Raise e
  ↔ e = TypeError
    ∧ ∃ path content, path ∈ listing ∧ eligible E path_suffix path = true
                      ∧ read_text path = Some content ∧ bad_header content.
Proof.
  revert G. induction listing as [|q l IH]; intros G; simpl.
  - split; [done|]. intros [_ (? & ? & H & _)]. by apply elem_of_nil in H.
  - assert (Hskip : (eligible E path_suffix q = false ∨ read_text q = None) →
      scan_loop E path_suffix read_text l G = Raise e
      ↔ e = TypeError
        ∧ ∃ path content, path ∈ q :: l ∧ eligible E path_suffix path = true
                          ∧ read_text path = Some content ∧ bad_header content).
    { intros Hq. rewrite IH. split.
      - intros [-> (p & c & ? & ? & ? & ?)]. split; [done|].
        exists p, c. split; [by right|done].
      - intros [-> (p & c & [->|?]%elem_of_cons & He & Hr & ?)].
        + destruct Hq; congruence.
        + split; [done|]. by exists p, c. }
    destruct (eligible E path_suffix q) eqn:He; simpl; [|apply Hskip; by left].
    destruct (read_text q) as [c|] eqn:Hr; [|apply Hskip; by right].
    clear Hskip.
    destruct (register E G q c) as [G1|e1] eqn:HG.
    + rewrite IH. split.
      * intros [-> (p & c' & ? & ? & ? & ?)]. split; [done|].
        exists p, c'. split; [by right|done].
      * intros [-> (p & c' & [->|?]%elem_of_cons & He' & Hr' & Hb)].
        -- assert (c' = c) as -> by congruence.
           assert (register E G q c = Raise TypeError) as HR
             by (by apply register_raise). congruence.
        -- split; [done|]. by exists p, c'.
    + apply register_raise in HG as [-> Hb]. split.
      * intros [= <-]. split; [done|]. exists q, c. split; [by left|done].
      * by intros [-> _].
Qed.

(** X22. The graph builder raises exactly when some listed file that
    passes the two tests and can be read has a header whose id is a
    non-empty list or whose type is a list; the error is then the
    [TypeError] of an unhashable key. *)
Theorem scan_knowledge_files_raises listing e :
  scan_knowledge_files E path_suffix read_text listing = Raise e
  ↔ e = TypeError
    ∧ ∃ path content, path ∈ listing ∧ eligible E path_suffix path = true
                      ∧ read_text path = Some content ∧ bad_header content.
Proof. apply scan_loop_raise. Qed.

Lemma scan_loop_inv (I : list string → scanned → Prop) :
  (∀ l q G, I l G → eligible E path_suffix q = false ∨ read_text q = None → I (l ++ [q]) G) →
  (∀ l q G c G', I l G → eligible E path_suffix q = true → read_text q = Some c →
                 register E G q c = Ok G' → I (l ++ [q]) G') →
  ∀ listing pre G G',
    I pre G → scan_loop E path_suffix read_text listing G = Ok G' → I (pre ++ listing) G'.
Proof.
  intros Hskip Hreg. induction listing as [|q l IH]; intros pre G G' HI Hs;
    simpl in Hs.
  - rewrite app_nil_r. by simplify_eq.
  - replace (pre ++ q :: l) with ((pre ++ [q]) ++ l) by (by rewrite <- app_assoc).
    destruct (eligible E path_suffix q) eqn:He; simpl in Hs.
    + destruct (read_text q) as [c|] eqn:Hr.
      * destruct (register E G q c) as [G1|] eqn:HG; [|done].
        eapply IH; [|exact Hs]. by eapply Hreg.
      * eapply IH; [|exact Hs]. apply Hskip; [done|by right].
    + eapply IH; [|exact Hs]. apply Hskip; [done|by left].
Qed.

Lemma register_ok G p c G' :
  scanned_ok G → register E G p c = Ok G' → scanned_ok G'.
Proof.
  intros (Hp & Hn & Ht & He). unfold register.
  destruct (node_id_of E _ p) as [i|]; [|done].
  destruct (node_type_of _) as [t|]; [|done].
  intros [= <-]. split; [|split; [|split]]; simpl.
  - intros p' i' [[= -> ->]|H]%elem_of_dict_set.
    + rewrite lookup_insert_eq. by eexists.
    + apply lookup_insert_is_Some'. right. by eapply Hp.
  - intros j n [[<- <-]|[_ H]]%lookup_insert_Some; [done|]. by apply Hn.
  - intros t' ids j H Hj.
    apply lookup_insert_is_Some'.
    destruct (elem_of_by_type_add _ _ _ _ _ _ H Hj) as [->|(ids' & ? & ?)];
      [by left|]. right. by eapply Ht.
  - intros j r k. rewrite !elem_of_app, !list_elem_of_fmap.
    intros [H|[(x & [= -> -> ->] & _)|(x & [= -> -> ->] & _)]].
    + apply lookup_insert_is_Some'. right. by eapply He.
    + rewrite lookup_insert_eq. by eexists.
    + rewrite lookup_insert_eq. by eexists.
Qed.

(** X23. In the graph the builder returns, every id of the path table
    and of the type table, and every source of an edge, is a node, and
    every node is stored under its own id. *)
Theorem scan_knowledge_files_ok listing G :
  scan_knowledge_files E path_suffix read_text listing = Ok G → scanned_ok G.
Proof.
  intros H.
  apply (scan_loop_inv (λ _ G, scanned_ok G)) with (pre := []) in H; [done|..].
  - auto.
  - intros. by eapply register_ok.
  - split; [|split; [|split]]; simpl.
    + by intros ? ? ?%elem_of_nil.
    + intros ? ?. by rewrite lookup_empty.
    + by intros ? ? ? ?%elem_of_nil.
    + by intros ? ? ? ?%elem_of_nil.
Qed.

Lemma scan_loop_start (I : list string → scanned → Prop) listing G :
  (∀ l q G, I l G → eligible E path_suffix q = false ∨ read_text q = None →
            I (l ++ [q]) G) →
  (∀ l q G c G', I l G → eligible E path_suffix q = true →
                 read_text q = Some c → register E G q c = Ok G' →
                 I (l ++ [q]) G') →
  I [] (Scanned ∅ [] [] []) →
  scan_knowledge_files E path_suffix read_text listing = Ok G → I listing G.
Proof.
  intros Hskip Hreg H0 H.
  by apply (scan_loop_inv I Hskip Hreg listing [] _ G H0).
Qed.

Lemma register_fields G q c G' :
  register E G q c = Ok G' →
  ∃ i t, node_id_of E (parse_frontmatter c).1 q = Ok i
    ∧ node_type_of (parse_frontmatter c).1 = Ok t
    ∧ sc_by_path G' = dict_set q i (sc_by_path G)
    ∧ (∃ n, sc_nodes G' = <[i := n]> (sc_nodes G)
            ∧ s_path n = q ∧ s_frontmatter n = (parse_frontmatter c).1)
    ∧ sc_edges G'
      = sc_edges G
        ++ ((λ r, (i, r, EdgeRequires))
              <$> iter_value (get_default "requires" (VList [])
                                (parse_frontmatter c).1))
        ++ ((λ r, (i, r, EdgeOptional))
              <$> iter_value (get_default "optional" (VList [])
                                (parse_frontmatter c).1)).
Proof.
  unfold register.
  destruct (node_id_of E _ q) as [i|]; [|done].
  destruct (node_type_of _) as [t|]; [|done].
  intros [= <-]. exists i, t. simpl.
  split; [done|]. split; [done|]. split; [done|]. split; [|done].
  eexists. split; [reflexivity|]. by split.
Qed.

(** X24. The path table of the graph maps exactly the listed paths that
    pass the two tests and can be read, each to the id its header gives
    (its stem when the header gives none). *)
Theorem scan_knowledge_files_by_path listing G p i :
  scan_knowledge_files E path_suffix read_text listing = Ok G →
  dict_get p (sc_by_path G) = Some i
  ↔ p ∈ listing ∧ registers E path_suffix read_text p i.
Proof.
  intros H. revert p i.
  apply (scan_loop_start
           (λ l G, ∀ p i, dict_get p (sc_by_path G) = Some i
                          ↔ p ∈ l ∧ registers E path_suffix read_text p i))
    with (listing := listing); [| | |exact H].
  - intros l q G0 HI Hq p i. rewrite HI, elem_of_app, list_elem_of_singleton.
    split; [intros [? ?]; split; [by left|done]|].
    intros [[?| ->] Hr]; [done|].
    destruct Hr as (He & c & Hr & _). destruct Hq; congruence.
  - intros l q G0 c G1 HI He Hr (j & t & Hj & _ & -> & _)%register_fields p i.
    rewrite dict_get_set, elem_of_app, list_elem_of_singleton.
    destruct (String.eqb_spec q p) as [->|Hqp].
    + split.
      * intros [= <-]. split; [by right|]. split; [done|]. by exists c.
      * intros [_ (_ & c' & Hr' & Hi)]. congruence.
    + rewrite HI. split; [intros [? ?]; split; [by left|done]|].
      intros [[?| ->] ?]; [done|congruence].
  - intros p i. simpl. split; [done|]. by intros [?%elem_of_nil _].
Qed.

(** X25. The nodes of the graph are exactly the ids under which some
    listed document is registered, and the record stored under an id
    is that of such a document: its path is listed and registered under
    the id, and its metadata map is the header of that file. *)
Theorem scan_knowledge_files_nodes listing G i :
  scan_knowledge_files E path_suffix read_text listing = Ok G →
  (is_Some (sc_nodes G !! i)
   ↔ ∃ p, p ∈ listing ∧ registers E path_suffix read_text p i)
  ∧ ∀ n, sc_nodes G !! i = Some n →
         s_path n ∈ listing
         ∧ registers E path_suffix read_text (s_path n) i
         ∧ ∃ c, read_text (s_path n) = Some c
                ∧ s_frontmatter n = (parse_frontmatter c).1.
Proof.
  intros H. revert i.
  apply (scan_loop_start
           (λ l G, ∀ i,
              (is_Some (sc_nodes G !! i)
               ↔ ∃ p, p ∈ l ∧ registers E path_suffix read_text p i)
              ∧ ∀ n, sc_nodes G !! i = Some n →
                     s_path n ∈ l
                     ∧ registers E path_suffix read_text (s_path n) i
                     ∧ ∃ c, read_text (s_path n) = Some c
                            ∧ s_frontmatter n = (parse_frontmatter c).1))
    with (listing := listing); [| | |exact H].
  - intros l q G0 HI Hq i. destruct (HI i) as [HI1 HI2]. split.
    + rewrite HI1. split.
      * intros (p & ? & ?). exists p. split; [|done].
        apply elem_of_app. by left.
      * intros (p & [?| ->%list_elem_of_singleton]%elem_of_app & Hr).
        -- by exists p.
        -- destruct Hr as (He & c & Hr & _). destruct Hq; congruence.
    + intros n Hn. destruct (HI2 n Hn) as (? & ? & ?).
      split; [|done]. apply elem_of_app. by left.
  - intros l q G0 c G1 HI He Hr
      (j & t & Hj & _ & _ & (n0 & -> & Hp & Hf) & _)%register_fields i.
    destruct (HI i) as [HI1 HI2].
    assert (Hq : registers E path_suffix read_text q j)
      by (split; [done|]; by exists c).
    split.
    + rewrite lookup_insert_is_Some', HI1. split.
      * intros [<-|(p & ? & ?)].
        -- exists q. split; [|done]. apply elem_of_app. right. by left.
        -- exists p. split; [|done]. apply elem_of_app. by left.
      * intros (p & [?| ->%list_elem_of_singleton]%elem_of_app & Hr').
        -- right. by exists p.
        -- left. destruct Hr' as (_ & c' & Hr' & Hi). congruence.
    + intros n [[<- <-]|[_ Hn]]%lookup_insert_Some.
      * rewrite Hp. split; [apply elem_of_app; right; by left|].
        split; [done|]. by exists c.
      * destruct (HI2 n Hn) as (? & ? & ?).
        split; [|done]. apply elem_of_app. by left.
  - intros i. simpl. rewrite lookup_empty. split.
    + split; [by intros [? ?]|]. by intros (? & ?%elem_of_nil & _).
    + done.
Qed.

(** X26. The edge list of the graph holds exactly one kind of entry:
    the id of a registered document, an element of what iterating its
    requires or optional field yields (the characters, for a field that
    is a string), and the kind of the field. *)
Theorem scan_knowledge_files_edges listing G i r k :
  scan_knowledge_files E path_suffix read_text listing = Ok G →
  (i, r, k) ∈ sc_edges G
  ↔ ∃ p c, p ∈ listing ∧ eligible E path_suffix p = true
           ∧ read_text p = Some c
           ∧ node_id_of E (parse_frontmatter c).1 p = Ok i
           ∧ r ∈ iter_value (get_default (edge_field k) (VList [])
                               (parse_frontmatter c).1).
Proof.
  intros H. revert i r k.
  apply (scan_loop_start
           (λ l G, ∀ i r k,
              (i, r, k) ∈ sc_edges G
              ↔ ∃ p c, p ∈ l ∧ eligible E path_suffix p = true
                       ∧ read_text p = Some c
                       ∧ node_id_of E (parse_frontmatter c).1 p = Ok i
                       ∧ r ∈ iter_value (get_default (edge_field k) (VList [])
                                           (parse_frontmatter c).1)))
    with (listing := listing); [| | |exact H].
  - intros l q G0 HI Hq i r k. rewrite HI. split.
    + intros (p & c & ? & ?). exists p, c. split; [|done].
      apply elem_of_app. by left.
    + intros (p & c & [?| ->%list_elem_of_singleton]%elem_of_app & He & Hr & ?).
      * by exists p, c.
      * destruct Hq; congruence.
  - intros l q G0 c G1 HI He Hr
      (j & t & Hj & _ & _ & _ & ->)%register_fields i r k.
    rewrite !elem_of_app, !list_elem_of_fmap, HI. split.
    + intros [(p & c' & ? & ?)|[(x & [= -> -> ->] & Hx)|(x & [= -> -> ->] & Hx)]].
      * exists p, c'. split; [|done]. apply elem_of_app. by left.
      * exists q, c. split; [apply elem_of_app; right; by left|done].
      * exists q, c. split; [apply elem_of_app; right; by left|done].
    + intros (p & c' & [?| ->%list_elem_of_singleton]%elem_of_app
              & He' & Hr' & Hi & Hx).
      * left. by exists p, c'.
      * assert (c' = c) as -> by congruence.
        assert (i = j) as -> by congruence.
        right. destruct k; [left|right]; by exists r.
  - intros i r k. simpl. split; [by intros ?%elem_of_nil|].
    by intros (? & ? & ?%elem_of_nil & _).
Qed.

Lemma scan_loop_app l1 l2 G G' :
  scan_loop E path_suffix read_text (l1 ++ l2) G = Ok G' →
  ∃ G1, scan_loop E path_suffix read_text l1 G = Ok G1
        ∧ scan_loop E path_suffix read_text l2 G1 = Ok G'.
Proof.
  revert G. induction l1 as [|q l1 IH]; intros G; simpl.
  - intros H. by exists G.
  - destruct (eligible E path_suffix q); simpl; [|apply IH].
    destruct (read_text q) as [c|]; [|apply IH].
    destruct (register E G q c) as [G1|]; [apply IH|done].
Qed.

Lemma scan_loop_keeps l G G' i :
  (∀ q, q ∈ l → ¬ registers E path_suffix read_text q i) →
  scan_loop E path_suffix read_text l G = Ok G' →
  sc_nodes G' !! i = sc_nodes G !! i.
Proof.
  revert G. induction l as [|q l IH]; intros G Hl; simpl.
  - by intros [= <-].
  - assert (Hl' : ∀ q', q' ∈ l → ¬ registers E path_suffix read_text q' i)
      by (intros q' ?; apply Hl; by right).
    destruct (eligible E path_suffix q) eqn:He; simpl; [|by apply IH].
    destruct (read_text q) as [c|] eqn:Hr; [|by apply IH].
    destruct (register E G q c) as [G1|] eqn:HG; [|done].
    intros Hs. rewrite (IH G1 Hl' Hs).
    apply register_fields in HG as (j & t & Hj & _ & _ & (n & -> & _) & _).
    apply lookup_insert_ne. intros ->. apply (Hl q); [by left|].
    split; [done|]. by exists c.
Qed.

(** X27. When several listed documents are registered under one id, the
    last of them defines the node: the record under the id has the path
    and the header of the last document registered under it, the earlier
    ones being overwritten. *)
Theorem scan_knowledge_files_last_wins l1 p l2 G c i :
  scan_knowledge_files E path_suffix read_text (l1 ++ p :: l2) = Ok G →
  eligible E path_suffix p = true →
  read_text p = Some c →
  node_id_of E (parse_frontmatter c).1 p = Ok i →
  (∀ q, q ∈ l2 → ¬ registers E path_suffix read_text q i) →
  ∃ n, sc_nodes G !! i = Some n
       ∧ s_path n = p ∧ s_frontmatter n = (parse_frontmatter c).1.
Proof.
  intros H He Hr Hi Hl2.
  apply scan_loop_app in H as (G1 & _ & H). simpl in H.
  rewrite He, Hr in H. simpl in H.
  destruct (register E G1 p c) as [G2|] eqn:HG; [|done].
  apply register_fields in HG as (j & t & Hj & _ & _ & (n & Hn & Hp & Hf) & _).
  assert (j = i) as -> by congruence.
  exists n. split; [|done].
  rewrite (scan_loop_keeps _ _ _ _ Hl2 H), Hn. apply lookup_insert_eq.
Qed.

End ScanFacts.

(** ** Dependency resolver: duplicates and fallback entries *)

Section ResolverOrder.

Variable E : env.

(** X28. Entered at a node id of a well-formed index, the resolver
    lists no id twice, cycles included. *)
Theorem resolve_dependencies_no_duplicates g entry opt l :
  wf_index g → is_Some (nodes g !! entry) →
  resolve_dependencies E g entry opt = Some (Ok l) → NoDup l.
Proof. apply resolve_dependencies_NoDup. Qed.

(** X29. An entry that is no node id but stands for the node [r]
    through the path or file-name fallback gives the outcome of
    resolving [r] itself, when the index is well-formed and [r] lies on
    no requires cycle. *)
Theorem resolve_dependencies_fallback g entry r n out :
  wf_index g → nodes g !! entry = None →
  find_node E g entry = Ok (Some (r, n)) → ¬ tc (req_edge E g) r r →
  resolve_dependencies E g entry false = Some out →
  resolve_dependencies E g r false = Some out.
Proof. apply resolve_dependencies_entry_eq. Qed.

End ResolverOrder.

(** ** Instances of the further properties *)

(** The diamond entered at [a]. *)
Lemma resolve_dependencies_keys_witness :
  resolve_dependencies Examples.E_diamond Examples.g_diamond "a" false
  = Some (Ok ["c"; "b"; "a"])
  ∧ ∀ x, x ∈ ["c"; "b"; "a"] → is_Some (nodes Examples.g_diamond !! x).
Proof.
  assert (H : resolve_dependencies Examples.E_diamond Examples.g_diamond "a" false
              = Some (Ok ["c"; "b"; "a"])) by (vm_compute; reflexivity).
  split; [exact H|].
  exact (resolve_dependencies_keys Examples.E_diamond Examples.g_diamond
           "a" false _ H).
Defined.

Lemma resolve_dependencies_complete_witness :
  find_node Examples.E_diamond Examples.g_diamond "a"
  = Ok (Some ("a", Examples.doc "a" ["b"; "c"] []))
  ∧ resolve_dependencies Examples.E_diamond Examples.g_diamond "a" false
    = Some (Ok ["c"; "b"; "a"])
  ∧ ∀ y, rtc (dep_edge Examples.E_diamond Examples.g_diamond false) "a" y →
         is_Some (nodes Examples.g_diamond !! y) → y ∈ ["c"; "b"; "a"].
Proof.
  assert (Hf : find_node Examples.E_diamond Examples.g_diamond "a"
               = Ok (Some ("a", Examples.doc "a" ["b"; "c"] [])))
    by (vm_compute; reflexivity).
  assert (H : resolve_dependencies Examples.E_diamond Examples.g_diamond "a" false
              = Some (Ok ["c"; "b"; "a"])) by (vm_compute; reflexivity).
  split; [exact Hf|]. split; [exact H|].
  exact (resolve_dependencies_complete Examples.E_diamond Examples.g_diamond
           "a" false _ _ _ Hf H).
Defined.

Lemma resolve_dependencies_reachable_witness :
  wf_index Examples.g_diamond
  ∧ find_node Examples.E_diamond Examples.g_diamond "a"
    = Ok (Some ("a", Examples.doc "a" ["b"; "c"] []))
  ∧ resolve_dependencies Examples.E_diamond Examples.g_diamond "a" false
    = Some (Ok ["c"; "b"; "a"])
  ∧ ∀ y, y ∈ ["c"; "b"; "a"] →
         rtc (dep_edge Examples.E_diamond Examples.g_diamond false) "a" y.
Proof.
  assert (Hf : find_node Examples.E_diamond Examples.g_diamond "a"
               = Ok (Some ("a", Examples.doc "a" ["b"; "c"] [])))
    by (vm_compute; reflexivity).
  assert (H : resolve_dependencies Examples.E_diamond Examples.g_diamond "a" false
              = Some (Ok ["c"; "b"; "a"])) by (vm_compute; reflexivity).
  split; [apply index_of_wf|]. split; [exact Hf|]. split; [exact H|].
  exact (resolve_dependencies_reachable Examples.E_diamond Examples.g_diamond
           "a" false _ _ _ (index_of_wf _) Hf H).
Defined.

(** The optional list of [a] holds a record; with the flag it is read. *)
Lemma resolve_dependencies_record_raises_witness :
  nodes Examples.g_pills !! "a"
  = Some (Examples.doc "a" []
            [Examples.extra_deploy; IStr "~/gdrive/pills/Deploy-Guide.md";
             IStr "~/gdrive/pills/style.md"])
  ∧ ∃ e, resolve_dependencies Examples.E_pills Examples.g_pills "a" true
         = Some (Raise e).
Proof.
  assert (Hn : nodes Examples.g_pills !! "a"
               = Some (Examples.doc "a" []
                         [Examples.extra_deploy;
                          IStr "~/gdrive/pills/Deploy-Guide.md";
                          IStr "~/gdrive/pills/style.md"]))
    by (vm_compute; reflexivity).
  split; [exact Hn|].
  apply (resolve_dependencies_record_raises Examples.E_pills Examples.g_pills
           "a" true _ [("path", "extra.md"); ("when", "deploy")] Hn).
  simpl. by left.
Defined.

(** The diamond raises nowhere. *)
Lemma resolve_dependencies_no_raise_witness :
  wf_index Examples.g_diamond
  ∧ (∀ i n, nodes Examples.g_diamond !! i = Some n →
            Forall safe_item (read_lists false n))
  ∧ ∃ l, resolve_dependencies Examples.E_diamond Examples.g_diamond "a" false
         = Some (Ok l).
Proof.
  assert (Hs : ∀ i n, nodes Examples.g_diamond !! i = Some n →
                      Forall safe_item (read_lists false n)).
  { intros i n Hn. apply elem_of_list_to_map_2 in Hn. simpl in Hn.
    repeat (apply elem_of_cons in Hn as [Hn|Hn];
            [injection Hn as -> ->; repeat constructor; by left|]).
    by apply elem_of_nil in Hn. }
  split; [apply index_of_wf|]. split; [exact Hs|].
  apply (resolve_dependencies_no_raise Examples.E_diamond Examples.g_diamond
           "a" false (index_of_wf _) Hs).
  left. vm_compute. by eexists.
Defined.

(** The file name [a.md] resolves to the node [data]. *)
Lemma resolve_node_id_wf_witness :
  wf_index Examples.g_suffix
  ∧ resolve_node_id Examples.E_suffix Examples.g_suffix "a.md" = Ok (Some "data")
  ∧ is_Some (nodes Examples.g_suffix !! "data")
  ∧ resolve_node_id Examples.E_suffix Examples.g_suffix "data" = Ok (Some "data").
Proof.
  assert (H : resolve_node_id Examples.E_suffix Examples.g_suffix "a.md"
              = Ok (Some "data")) by (vm_compute; reflexivity).
  split; [apply index_of_wf|]. split; [exact H|].
  exact (resolve_node_id_wf Examples.E_suffix Examples.g_suffix "a.md" "data"
           (index_of_wf _) H).
Defined.

Lemma resolve_node_id_empty_ref_witness :
  nodes Examples.g_suffix !! EmptyString = None
  ∧ by_path_get (path_join Examples.E_suffix (WORKSPACE Examples.E_suffix)
                   EmptyString)
      (by_path Examples.g_suffix) = None
  ∧ resolve_node_id Examples.E_suffix Examples.g_suffix EmptyString
    = Ok (Some "data").
Proof.
  assert (H1 : nodes Examples.g_suffix !! EmptyString = None)
    by (vm_compute; reflexivity).
  assert (H2 : by_path_get (path_join Examples.E_suffix
                              (WORKSPACE Examples.E_suffix) EmptyString)
                 (by_path Examples.g_suffix) = None)
    by (vm_compute; reflexivity).
  split; [exact H1|]. split; [exact H2|].
  exact (resolve_node_id_empty_ref Examples.E_suffix Examples.g_suffix
           _ "data" _ H1 H2 eq_refl).
Defined.

(** A body that starts with an empty line. *)
Lemma parse_frontmatter_body_strip_witness :
  Str.find closing ((nl +:+ "id: a") +:+ closing +:+ (nl +:+ "Hello"))
  = Some (String.length (nl +:+ "id: a"))
  ∧ starts_blank (nl +:+ "Hello")
  ∧ Str.strip
      (parse_frontmatter
         (marker +:+ (nl +:+ "id: a") +:+ closing +:+ (nl +:+ "Hello"))).2
    = Str.strip (nl +:+ "Hello").
Proof.
  assert (H : Str.find closing ((nl +:+ "id: a") +:+ closing +:+ (nl +:+ "Hello"))
              = Some (String.length (nl +:+ "id: a")))
    by (vm_compute; reflexivity).
  assert (Hb : starts_blank (nl +:+ "Hello")) by (vm_compute; reflexivity).
  split; [exact H|]. split; [exact Hb|].
  exact (parse_frontmatter_body_strip (nl +:+ "id: a") (nl +:+ "Hello") H Hb).
Defined.

Lemma parse_frontmatter_scalar_nonempty_witness :
  (parse_frontmatter Examples.doc_hello).1 !! "id" = Some (VStr "a")
  ∧ Str.is_empty "a" = false.
Proof.
  assert (H : (parse_frontmatter Examples.doc_hello).1 !! "id" = Some (VStr "a"))
    by (vm_compute; reflexivity).
  split; [exact H|].
  exact (parse_frontmatter_scalar_nonempty Examples.doc_hello "id" "a" H).
Defined.

(** An indented note between a key and its list. *)
Lemma parse_lines_ignorable_witness :
  ignorable "  see below" = true
  ∧ parse_lines (["requires:"] ++ "  see below" :: ["  - b"])
    = parse_lines (["requires:"] ++ ["  - b"]).
Proof.
  assert (H : ignorable "  see below" = true) by (vm_compute; reflexivity).
  split; [exact H|].
  exact (parse_lines_ignorable ["requires:"] "  see below" ["  - b"] H).
Defined.

Lemma select_pills_pathless_witness :
  dict_get "path" Cases.pathless = None
  ∧ select_pills Examples.E_pills ["deploy"]
      ([IStr "deploy.md"] ++ IDict Cases.pathless :: [IStr "deploy-more.md"])
      (Collected ∅ ∅ [] [])
    = select_pills Examples.E_pills ["deploy"] [IStr "deploy.md"]
        (Collected ∅ ∅ [] []).
Proof.
  assert (H : dict_get "path" Cases.pathless = None) by reflexivity.
  split; [exact H|].
  exact (select_pills_pathless Examples.E_pills ["deploy"] [IStr "deploy.md"]
           Cases.pathless [IStr "deploy-more.md"] (Collected ∅ ∅ [] []) H).
Defined.

Lemma select_pills_empty_pill_witness :
  EmptyString ∈ [EmptyString]
  ∧ Forall has_path [Examples.extra_deploy; IStr "style.md"]
  ∧ select_pills Examples.E_pills [EmptyString]
      [Examples.extra_deploy; IStr "style.md"] (Collected ∅ ∅ [] [])
    = Collected ∅ ∅ ([] ++ ["extra.md"; "style.md"]) [].
Proof.
  assert (H1 : EmptyString ∈ [EmptyString]) by (by left).
  assert (H2 : Forall has_path [Examples.extra_deploy; IStr "style.md"]).
  { repeat constructor. by eexists. }
  split; [exact H1|]. split; [exact H2|].
  exact (select_pills_empty_pill Examples.E_pills [EmptyString]
           [Examples.extra_deploy; IStr "style.md"] (Collected ∅ ∅ [] []) H1 H2).
Defined.

(** The shared file [a] requires is loaded under its file name. *)
Lemma build_context_external_files_witness :
  ∃ b, build_context Cases.E_ext Cases.g_ext "a" None "" [] = Some (Ok b)
       ∧ b_external_files b !! "y.md" = Some "shared"
       ∧ Str.is_empty "shared" = false
       ∧ ∃ ref, (ref ∈ external_refs_required
                         (collect Cases.E_ext Cases.g_ext (b_nodes b) "" [])
                 ∨ ref ∈ external_refs_optional
                           (collect Cases.E_ext Cases.g_ext (b_nodes b) "" []))
                ∧ path_name Cases.E_ext ref = "y.md"
                ∧ load_external_file Cases.E_ext ref = Some "shared".
Proof.
  destruct (build_context Cases.E_ext Cases.g_ext "a" None "" [])
    as [[b|e]|] eqn:Hb; [|vm_compute in Hb; discriminate..].
  assert (Hk : b_external_files b !! "y.md" = Some "shared").
  { vm_compute in Hb. injection Hb as <-. vm_compute. reflexivity. }
  exists b. split; [reflexivity|]. split; [exact Hk|].
  exact (build_context_external_files Cases.E_ext Cases.g_ext "a" None "" []
           b "y.md" "shared" Hb Hk).
Defined.

(** The two-node cycle entered at the id [a]. *)
Lemma resolve_dependencies_no_duplicates_witness :
  wf_index Examples.g_cycle
  ∧ is_Some (nodes Examples.g_cycle !! "a")
  ∧ resolve_dependencies Examples.E_cycle Examples.g_cycle "a" false
    = Some (Ok ["b"; "a"])
  ∧ NoDup ["b"; "a"].
Proof.
  assert (Hn : is_Some (nodes Examples.g_cycle !! "a"))
    by (vm_compute; by eexists).
  assert (H : resolve_dependencies Examples.E_cycle Examples.g_cycle "a" false
              = Some (Ok ["b"; "a"])) by (vm_compute; reflexivity).
  split; [apply index_of_wf|]. split; [exact Hn|]. split; [exact H|].
  exact (resolve_dependencies_no_duplicates Examples.E_cycle Examples.g_cycle
           "a" false _ (index_of_wf _) Hn H).
Defined.

(** The chain entered at the file name [a.md]. *)
Lemma resolve_dependencies_fallback_witness :
  wf_index Examples.g_chain
  ∧ nodes Examples.g_chain !! "a.md" = None
  ∧ find_node Examples.E_chain Examples.g_chain "a.md"
    = Ok (Some ("a", Examples.doc "a" ["b"] []))
  ∧ ¬ tc (req_edge Examples.E_chain Examples.g_chain) "a" "a"
  ∧ resolve_dependencies Examples.E_chain Examples.g_chain "a.md" false
    = Some (Ok ["b"; "a"])
  ∧ resolve_dependencies Examples.E_chain Examples.g_chain "a" false
    = Some (Ok ["b"; "a"]).
Proof.
  assert (Hn : nodes Examples.g_chain !! "a.md" = None)
    by (vm_compute; reflexivity).
  assert (Hf : find_node Examples.E_chain Examples.g_chain "a.md"
               = Ok (Some ("a", Examples.doc "a" ["b"] [])))
    by (vm_compute; reflexivity).
  assert (H : resolve_dependencies Examples.E_chain Examples.g_chain "a.md" false
              = Some (Ok ["b"; "a"])) by (vm_compute; reflexivity).
  split; [apply index_of_wf|]. split; [exact Hn|]. split; [exact Hf|].
  split; [apply chain_acyclic|]. split; [exact H|].
  exact (resolve_dependencies_fallback Examples.E_chain Examples.g_chain
           "a.md" "a" _ _ (index_of_wf _) Hn Hf (chain_acyclic _) H).
Defined.

(** The graph of the listing [Cases.listing]. *)
Lemma scan_listing : Cases.scan Cases.listing = Ok Cases.G_scan.
Proof. vm_compute. reflexivity. Qed.

Lemma scan_knowledge_files_ok_witness :
  Cases.scan Cases.listing = Ok Cases.G_scan ∧ scanned_ok Cases.G_scan.
Proof.
  split; [exact scan_listing|].
  exact (scan_knowledge_files_ok Cases.E_scan Cases.path_suffix Cases.read_text
           Cases.listing Cases.G_scan scan_listing).
Defined.

(** The hidden file and the text file are not in the path table; the
    second document with the id [a] is. *)
Lemma scan_knowledge_files_by_path_witness :
  Cases.scan Cases.listing = Ok Cases.G_scan
  ∧ (dict_get "/k/b.md" (sc_by_path Cases.G_scan) = Some "a"
     ↔ "/k/b.md" ∈ Cases.listing
       ∧ registers Cases.E_scan Cases.path_suffix Cases.read_text "/k/b.md" "a")
  ∧ sc_by_path Cases.G_scan
    = [("/k/a.md", "a"); ("/k/b.md", "a"); ("/k/c.yaml", "c")].
Proof.
  split; [exact scan_listing|]. split; [|vm_compute; reflexivity].
  exact (scan_knowledge_files_by_path Cases.E_scan Cases.path_suffix
           Cases.read_text Cases.listing Cases.G_scan "/k/b.md" "a" scan_listing).
Defined.

Lemma scan_knowledge_files_nodes_witness :
  Cases.scan Cases.listing = Ok Cases.G_scan
  ∧ (is_Some (sc_nodes Cases.G_scan !! "c")
     ↔ ∃ p, p ∈ Cases.listing
            ∧ registers Cases.E_scan Cases.path_suffix Cases.read_text p "c")
  ∧ ∀ n, sc_nodes Cases.G_scan !! "c" = Some n →
         s_path n ∈ Cases.listing
         ∧ registers Cases.E_scan Cases.path_suffix Cases.read_text (s_path n) "c"
         ∧ ∃ c, Cases.read_text (s_path n) = Some c
                ∧ s_frontmatter n = (parse_frontmatter c).1.
Proof.
  split; [exact scan_listing|].
  exact (scan_knowledge_files_nodes Cases.E_scan Cases.path_suffix
           Cases.read_text Cases.listing Cases.G_scan "c" scan_listing).
Defined.

(** The scalar [requires: xy] of the second document gives one edge
    for each of its characters. *)
Lemma scan_knowledge_files_edges_witness :
  Cases.scan Cases.listing = Ok Cases.G_scan
  ∧ (("a", IStr "x", EdgeRequires) ∈ sc_edges Cases.G_scan
     ↔ ∃ p c, p ∈ Cases.listing
              ∧ eligible Cases.E_scan Cases.path_suffix p = true
              ∧ Cases.read_text p = Some c
              ∧ node_id_of Cases.E_scan (parse_frontmatter c).1 p = Ok "a"
              ∧ IStr "x" ∈ iter_value (get_default (edge_field EdgeRequires)
                                         (VList []) (parse_frontmatter c).1))
  ∧ sc_edges Cases.G_scan
    = [("a", IStr "b", EdgeRequires); ("a", IStr "x", EdgeRequires);
       ("a", IStr "y", EdgeRequires)].
Proof.
  split; [exact scan_listing|]. split; [|vm_compute; reflexivity].
  exact (scan_knowledge_files_edges Cases.E_scan Cases.path_suffix
           Cases.read_text Cases.listing Cases.G_scan "a" (IStr "x")
           EdgeRequires scan_listing).
Defined.

(** Of the two documents with the id [a], the second defines the
    node. *)
Lemma scan_knowledge_files_last_wins_witness :
  Cases.scan (["/k/a.md"] ++ "/k/b.md"
              :: ["/k/notes.txt"; "/k/.hidden.md"; "/k/missing.md"; "/k/c.yaml"])
  = Ok Cases.G_scan
  ∧ eligible Cases.E_scan Cases.path_suffix "/k/b.md" = true
  ∧ Cases.read_text "/k/b.md" = Some Cases.doc_a'
  ∧ node_id_of Cases.E_scan (parse_frontmatter Cases.doc_a').1 "/k/b.md" = Ok "a"
  ∧ ∃ n, sc_nodes Cases.G_scan !! "a" = Some n
         ∧ s_path n = "/k/b.md"
         ∧ s_frontmatter n = (parse_frontmatter Cases.doc_a').1.
Proof.
  assert (He : eligible Cases.E_scan Cases.path_suffix "/k/b.md" = true)
    by (vm_compute; reflexivity).
  assert (Hr : Cases.read_text "/k/b.md" = Some Cases.doc_a')
    by (vm_compute; reflexivity).
  assert (Hi : node_id_of Cases.E_scan (parse_frontmatter Cases.doc_a').1
                 "/k/b.md" = Ok "a") by (vm_compute; reflexivity).
  assert (Hl : ∀ q, q ∈ ["/k/notes.txt"; "/k/.hidden.md"; "/k/missing.md";
                         "/k/c.yaml"] →
                    ¬ registers Cases.E_scan Cases.path_suffix Cases.read_text
                        q "a").
  { intros q Hq (Hq1 & c & Hq2 & Hq3).
    repeat (apply elem_of_cons in Hq as [->|Hq];
            [vm_compute in Hq1; try discriminate Hq1;
             vm_compute in Hq2; try discriminate Hq2;
             injection Hq2 as <-; vm_compute in Hq3; discriminate Hq3|]).
    by apply elem_of_nil in Hq. }
  split; [exact scan_listing|]. split; [exact He|]. split; [exact Hr|].
  split; [exact Hi|].
  exact (scan_knowledge_files_last_wins Cases.E_scan Cases.path_suffix
           Cases.read_text ["/k/a.md"] "/k/b.md" _ Cases.G_scan Cases.doc_a' "a"
           scan_listing He Hr Hi Hl).
Defined.

(** A header whose id is a list stops the graph builder. *)
Lemma scan_bad_header_raises :
  scan_knowledge_files Cases.E_scan Cases.path_suffix (λ _, Some Cases.doc_bad)
    ["/k/a.md"; "/k/bad.md"]
  = Raise TypeError.
Proof. vm_compute. reflexivity. Qed.

(** In [build_context] the exception of a search is caught: the text
    and the required externals of the node stay, and none of its
    optional entries is scheduled or skipped. *)
Lemma collect_search_raises :
  parse_optional_deps Cases.E_overflow
    [IStr "plain.md"; IDict Cases.overflow] "deploy"
  = Raise OverflowError
  ∧ c_files (collect Cases.E_overflow Cases.g_overflow ["a"] "deploy" []) !! "a"
    = Some "a"
  ∧ elements (external_refs_required
                (collect Cases.E_overflow Cases.g_overflow ["a"] "deploy" []))
    = ["/srv/shared/y.md"]
  ∧ external_refs_optional
      (collect Cases.E_overflow Cases.g_overflow ["a"] "deploy" []) = []
  ∧ skipped_optional
      (collect Cases.E_overflow Cases.g_overflow ["a"] "deploy" []) = [].
Proof. by vm_compute. Qed.

(** A user name with a null character: the exception of
    [Path.expanduser] is passed on. *)
Lemma resolve_node_id_null_user :
  resolve_node_id Examples.E_suffix Examples.g_suffix ("~x" +:+ Posix.nul)
  = Raise ValueError
  ∧ resolve_node_id Examples.E_suffix Examples.g_suffix "~x"
    = Raise RuntimeError.
Proof. by vm_compute. Qed.
